(** * Contiguous concatenation kernels (ATen, CPU): a shallow embedding

    Two revisions of [cat_contig_kernel_impl] are embedded:
    - [Parallel.cat_contig_kernel_impl]: the [at::parallel_for] / [std::memcpy]
      revision;
    - [Serial.cat_contig_kernel_impl]: the sequential revision that copies
      each run with a scalar loop or with [vec256::map].

    Memory is one flat, byte-addressed store.  A [scalar_t*] is a byte
    address; adding [n] to it moves it by [n * sizeof(scalar_t)] bytes.
    The kernels are steps on a state that may stop early (an accessor that
    raises, a division by zero, an overflowing counter): the state they
    leave behind is part of their result.  Every copy the kernels perform
    is also recorded in a log (ghost state), labelled with the outer index
    and the input position that issued it.

    What the sources use but do not declare is a parameter
    ([sizeof(scalar_t)], [GRAIN_SIZE], [Vec256<scalar_t>::size()], the
    scheduler of [at::parallel_for]) or is modelled from the specification
    (the tensor accessors, [at::parallel_for], [vec256::map]). *)

From Stdlib Require Import ZArith List Lia Bool Permutation.
From Stdlib Require Import Init.Byte.
Import ListNotations.
Local Open Scope Z_scope.

Set Implicit Arguments.

(* ------------------------------------------------------------------ *)
(** ** Machine integers *)

Module Int64.

Definition min_signed : Z := - 2 ^ 63.
Definition max_signed : Z := 2 ^ 63 - 1.
Definition modulus : Z := 2 ^ 64.

(** Two's-complement reduction of a mathematical integer to [int64_t]. *)
Definition wrap (z : Z) : Z := (z - min_signed) mod modulus + min_signed.

Definition in_range (z : Z) : Prop := min_signed <= z <= max_signed.

Definition mul (a b : Z) : Z := wrap (a * b).

(** Conversion to [size_t] (the count argument of [std::memcpy]). *)
Definition to_size_t (z : Z) : Z := z mod modulus.

End Int64.

(** Largest value of the [int] that [auto i = 0] declares. *)
Definition INT_MAX : Z := 2 ^ 31 - 1.

(* ------------------------------------------------------------------ *)
(** ** Outcomes *)

Inductive error : Type :=
| DivideByZero     (* integer division by zero *)
| IndexError       (* [size(dim)] / [stride(dim)] with [dim] out of range *)
| SignedOverflow.  (* [++i] on an [int] that holds [INT_MAX] *)

Inductive outcome (A : Type) : Type :=
| Done (a : A)
| Fault (e : error).

Arguments Done {A} a.
Arguments Fault {A} e.

Definition bind {A B : Type} (c : outcome A) (k : A -> outcome B) : outcome B :=
  match c with
  | Done a => k a
  | Fault e => Fault e
  end.

Notation "x <- c ;; k" := (bind c (fun x => k))
  (at level 61, c at next level, right associativity).

(** [a / b] on [int64_t]: truncating, faulting on a zero divisor. *)
Definition div64 (a b : Z) : outcome Z :=
  if b =? 0 then Fault DivideByZero else Done (Int64.wrap (Z.quot a b)).

(* ------------------------------------------------------------------ *)
(** ** Tensors *)

(** Modelled from the spec: the tensor type (ATen's [Tensor]) is not part of
    these sources.  A buffer view carries its per-axis extents, its per-axis
    strides (in elements) and a raw pointer to its first element. *)
Record Tensor : Type := mkTensor {
  sizes : list Z;
  strides : list Z;
  data_ptr : Z
}.

Definition prodZ (l : list Z) : Z := fold_right Z.mul 1 l.

Definition sumZ (l : list Z) : Z := fold_right Z.add 0 l.

(** Modelled from the spec: [t.numel()], the element count of the missing
    tensor type, is the product of the extents. *)
Definition numel (t : Tensor) : Z := prodZ (sizes t).

(** Modelled from the spec: [t.size(dim)], the shape accessor of the
    missing tensor type, returns the extent along an axis; asking for an
    axis the tensor does not have stops the caller. *)
Definition size (t : Tensor) (dim : nat) : outcome Z :=
  match nth_error (sizes t) dim with
  | Some s => Done s
  | None => Fault IndexError
  end.

(** Modelled from the spec: [t.stride(dim)], the stride accessor of the
    missing tensor type, likewise. *)
Definition stride (t : Tensor) (dim : nat) : outcome Z :=
  match nth_error (strides t) dim with
  | Some s => Done s
  | None => Fault IndexError
  end.

(* ------------------------------------------------------------------ *)
(** ** Memory, copies and the copy log *)

Definition mem : Type := Z -> byte.

(** Pointwise equality of two stores: the same byte at every address. *)
Definition mem_eq (m1 m2 : mem) : Prop := forall a, m1 a = m2 a.

Definition in_range (lo len a : Z) : bool := (lo <=? a) && (a <? lo + len).

(** [std::memcpy(dst, src, n)], [n] in bytes. *)
Definition memcpy (m : mem) (dst src n : Z) : mem :=
  fun a => if in_range dst n a then m (src + (a - dst)) else m a.

Definition load_bytes (m : mem) (p : Z) (n : Z) : list byte :=
  map (fun k => m (p + Z.of_nat k)) (seq 0 (Z.to_nat n)).

Definition store_bytes (m : mem) (p : Z) (v : list byte) : mem :=
  fun a => if in_range p (Z.of_nat (length v)) a
           then nth (Z.to_nat (a - p)) v x00 else m a.

(** One copy of a contiguous run, as the kernels issue it. *)
Record copy_event : Type := mkEvent {
  ev_outer : Z;     (* outer index [i] *)
  ev_input : nat;   (* position [j] of the input in the list *)
  ev_dst : Z;       (* destination address *)
  ev_src : Z;       (* source address *)
  ev_len : Z        (* length in bytes *)
}.

Record state : Type := mkState {
  st_mem : mem;
  st_log : list copy_event
}.

Definition covers (e : copy_event) (a : Z) : bool :=
  in_range (ev_dst e) (ev_len e) a.

Definition reads (e : copy_event) (a : Z) : bool :=
  in_range (ev_src e) (ev_len e) a.

Definition apply_event (m : mem) (e : copy_event) : mem :=
  memcpy m (ev_dst e) (ev_src e) (ev_len e).

Definition apply_log (l : list copy_event) (m : mem) : mem :=
  fold_left apply_event l m.

(** A step on the state that may stop early: the state it leaves behind,
    and how it ended. *)
Definition exec (A : Type) : Type := state -> state * outcome A.

Definition ret {A : Type} (a : A) : exec A := fun st => (st, Done a).

(** A computation that does not touch the state. *)
Definition lift {A : Type} (c : outcome A) : exec A := fun st => (st, c).

Definition bind_exec {A B : Type} (c : exec A) (k : A -> exec B) : exec B :=
  fun st =>
    match c st with
    | (st', Done a) => k a st'
    | (st', Fault e) => (st', Fault e)
    end.

Notation "x <~ c ;; k" := (bind_exec c (fun x => k))
  (at level 61, c at next level, right associativity).

(** Half-open integer range [[lo, hi)] in increasing order. *)
Definition rangeZ (lo hi : Z) : list Z :=
  map (fun k => lo + Z.of_nat k) (seq 0 (Z.to_nat (hi - lo))).

(* ------------------------------------------------------------------ *)
(** ** The parallel revision: [at::parallel_for] over [std::memcpy] *)

Module Parallel.
Section Kernel.

(** [sizeof(scalar_t)] of the instantiation. *)
Variable sizeof_scalar : Z.

(** [at::internal::GRAIN_SIZE]; the constant is declared outside these
    sources. *)
Variable GRAIN_SIZE : Z.

(** The sub-ranges the scheduler of [at::parallel_for] hands out for
    [(begin, end, grain_size)], in the order in which they take effect. *)
Variable schedule : Z -> Z -> Z -> list (Z * Z).

(** [p + n] on a [scalar_t*]. *)
Definition ptr_add (p n : Z) : Z := p + n * sizeof_scalar.

(** [std::memcpy(dst, src, n)] issued for outer index [i] and input [j]:
    the store is updated and the copy is logged. *)
Definition do_memcpy (i : Z) (j : nat) (dst src n : Z) : exec unit :=
  fun st =>
    ({| st_mem := memcpy (st_mem st) dst src n;
        st_log := st_log st ++ [mkEvent i j dst src n] |}, Done tt).

(** [for (const auto& t : tensors) { ... }] for outer index [i];
    [j] counts the inputs already visited. *)
Fixpoint copy_tensors (dim : nat) (i : Z) (tensors : list Tensor) (j : nat)
         (output_ptr : Z) : exec unit :=
  match tensors with
  | [] => ret tt
  | t :: rest =>
      sz <~ lift (size t dim) ;;
      sd <~ lift (stride t dim) ;;
      let local_inner := Int64.mul sz sd in
      let input_ptr := ptr_add (data_ptr t) (Int64.mul i local_inner) in
      _ <~ do_memcpy i j output_ptr input_ptr
             (Int64.to_size_t (local_inner * sizeof_scalar)) ;;
      copy_tensors dim i rest (S j) (ptr_add output_ptr local_inner)
  end.

(** Body of [for (auto i = start; i < end; ++i)]. *)
Definition loop_body (result : Tensor) (tensors : list Tensor) (dim : nat)
           (output_stride : Z) (i : Z) : exec unit :=
  let output_ptr := data_ptr result in
  let output_ptr := ptr_add output_ptr (Int64.mul i output_stride) in
  copy_tensors dim i tensors 0%nat output_ptr.

Fixpoint loop_from (body : Z -> exec unit) (n : nat) (i : Z) : exec unit :=
  match n with
  | O => ret tt
  | S n' => _ <~ body i ;; loop_from body n' (i + 1)
  end.

(** The lambda [loop_nd]. *)
Definition loop_nd (result : Tensor) (tensors : list Tensor) (dim : nat)
           (output_stride : Z) (start end_ : Z) : exec unit :=
  loop_from (loop_body result tensors dim output_stride)
            (Z.to_nat (end_ - start)) start.

(** Modelled from the spec: [at::parallel_for] is not part of these
    sources.  It accepts a half-open range, a minimum grain size and a
    task; it runs the task on every sub-range the scheduler hands out and
    returns when all of them are complete.  The sub-ranges take effect one
    after the other, in the scheduler's order. *)
Definition parallel_for (begin end_ grain_size : Z)
           (f : Z -> Z -> exec unit) : exec unit :=
  fold_left (fun acc (r : Z * Z) => _ <~ acc ;; f (fst r) (snd r))
            (schedule begin end_ grain_size) (ret tt).

(** The partition parameters [outer], [output_stride] and
    [adjusted_grain_size], computed at the head of the function body. *)
Definition partition_params (result : Tensor) (dim : nat)
  : outcome (Z * Z * Z) :=
  rsz <- size result dim ;;
  rsd <- stride result dim ;;
  outer <- div64 (numel result) (Int64.mul rsz rsd) ;;
  let output_stride := Int64.mul rsd rsz in
  adjusted_grain_size <- div64 GRAIN_SIZE output_stride ;;
  Done (outer, output_stride, adjusted_grain_size).

Definition cat_contig_kernel_impl (result : Tensor) (tensors : list Tensor)
           (dim : nat) : exec unit :=
  p <~ lift (partition_params result dim) ;;
  let '(outer, output_stride, adjusted_grain_size) := p in
  parallel_for 0 outer adjusted_grain_size
               (loop_nd result tensors dim output_stride).

End Kernel.
End Parallel.

(* ------------------------------------------------------------------ *)
(** ** The sequential revision: scalar loop or [vec256::map] *)

Module InputMeta.
Record t : Type := make { data_ptr : Z; inner_size : Z }.
End InputMeta.

Module Serial.
Section Kernel.

(** [sizeof(scalar_t)] of the instantiation. *)
Variable sizeof_scalar : Z.

(** [Vec256<scalar_t>::size()], the number of lanes; the vector type is
    declared outside these sources. *)
Variable Vec_size : Z.

Definition ptr_add (p n : Z) : Z := p + n * sizeof_scalar.

(** The constructor [InputMeta(t, dim, inner)]. *)
Definition InputMeta_ctor (t : Tensor) (dim : nat) (inner : Z)
  : outcome InputMeta.t :=
  sz <- size t dim ;;
  Done (InputMeta.make (data_ptr t) (Int64.mul sz inner)).

(** [for (auto const &tensor : tensors) inputs.emplace_back(...)] *)
Fixpoint collect_inputs (dim : nat) (tensors : list Tensor)
  : outcome (list InputMeta.t) :=
  match tensors with
  | [] => Done []
  | tensor :: rest =>
      sd <- stride tensor dim ;;
      im <- InputMeta_ctor tensor dim sd ;;
      ims <- collect_inputs dim rest ;;
      Done (im :: ims)
  end.

(** An element of type [scalar_t] is its object representation. *)
Definition load_scalar (m : mem) (p : Z) : list byte :=
  load_bytes m p sizeof_scalar.

Definition store_scalar (m : mem) (p : Z) (v : list byte) : mem :=
  store_bytes m p v.

(** [for (int64_t k = 0; k < local_inner; k++) result_ptr[k] = input_ptr[k];] *)
Fixpoint scalar_loop (n : nat) (k : Z) (result_ptr input_ptr : Z) (m : mem)
  : mem :=
  match n with
  | O => m
  | S n' =>
      scalar_loop n' (k + 1) result_ptr input_ptr
        (store_scalar m (ptr_add result_ptr k)
                      (load_scalar m (ptr_add input_ptr k)))
  end.

Definition scalar_copy (result_ptr input_ptr local_inner : Z) (m : mem) : mem :=
  scalar_loop (Z.to_nat local_inner) 0 result_ptr input_ptr m.

(** Modelled from the spec: [Vec256] and [vec256::map] are not part of
    these sources.  The bulk move is subdivided into full SIMD-width
    chunks plus a remainder; a vector is the bytes of its lanes.
    [loadu m p count] loads [count] elements and zero-fills the other
    lanes, [vec_store m p v count] writes the first [count] elements. *)
Definition loadu (m : mem) (p : Z) (count : Z) : list byte :=
  load_bytes m p (count * sizeof_scalar)
  ++ repeat x00 (Z.to_nat ((Vec_size - count) * sizeof_scalar)).

(** Modelled from the spec: [Vec256::store(ptr, count)], see [loadu]. *)
Definition vec_store (m : mem) (p : Z) (v : list byte) (count : Z) : mem :=
  store_bytes m p (firstn (Z.to_nat (count * sizeof_scalar)) v).

(** Modelled from the spec: the full-width chunks of [vec256::map],
    [for (; d < size - (size % Vec::size()); d += Vec::size())]. *)
Fixpoint vec_loop (vec_fun : list byte -> list byte) (fuel : nat)
         (bound d : Z) (output_data input_data : Z) (m : mem) : Z * mem :=
  match fuel with
  | O => (d, m)
  | S fuel' =>
      if d <? bound then
        let output_vec := vec_fun (loadu m (ptr_add input_data d) Vec_size) in
        vec_loop vec_fun fuel' bound (d + Vec_size) output_data input_data
                 (vec_store m (ptr_add output_data d) output_vec Vec_size)
      else (d, m)
  end.

(** Modelled from the spec: [vec256::map(vec_fun, output_data, input_data,
    size)], the full-width chunks followed by the remainder. *)
Definition vec256_map (vec_fun : list byte -> list byte)
           (output_data input_data size_ : Z) (m : mem) : mem :=
  let bound := size_ - Z.rem size_ Vec_size in
  let '(d, m1) := vec_loop vec_fun (Z.to_nat bound) bound 0
                           output_data input_data m in
  if size_ - d >? 0 then
    let output_vec := vec_fun (loadu m1 (ptr_add input_data d) (size_ - d)) in
    vec_store m1 (ptr_add output_data d) output_vec (size_ - d)
  else m1.

(** The copy of one input contribution: the [if (local_inner < Vec::size())]
    statement. *)
Definition copy_run (result_ptr input_ptr local_inner : Z) (m : mem) : mem :=
  if local_inner <? Vec_size then
    scalar_copy result_ptr input_ptr local_inner m
  else
    vec256_map (fun x => x) result_ptr input_ptr local_inner m.

(** The copy issued for outer index [i] and input [j]: the store is updated
    and the copy is logged. *)
Definition do_copy (i : Z) (j : nat) (result_ptr input_ptr local_inner : Z)
           (st : state) : state :=
  {| st_mem := copy_run result_ptr input_ptr local_inner (st_mem st);
     st_log := st_log st
               ++ [mkEvent i j result_ptr input_ptr (local_inner * sizeof_scalar)] |}.

(** [for (int64_t j = 0; j < ninputs; j++) { ... }] for outer index [i]:
    the cursor [result_ptr] is carried from one input to the next. *)
Fixpoint copy_inputs (i : Z) (inputs : list InputMeta.t) (j : nat)
         (result_ptr : Z) (st : state) : Z * state :=
  match inputs with
  | [] => (result_ptr, st)
  | im :: rest =>
      let local_inner := InputMeta.inner_size im in
      let input_ptr :=
        ptr_add (InputMeta.data_ptr im) (Int64.mul i local_inner) in
      let st' := do_copy i j result_ptr input_ptr local_inner st in
      copy_inputs i rest (S j) (ptr_add result_ptr local_inner) st'
  end.

(** [for (auto i = 0; i < outer; ++i) { ... }]: the cursor is carried from
    one outer index to the next as well. *)
Fixpoint outer_loop (inputs : list InputMeta.t) (n : nat) (i : Z)
         (result_ptr : Z) (st : state) : Z * state :=
  match n with
  | O => (result_ptr, st)
  | S n' =>
      let '(result_ptr', st') := copy_inputs i inputs 0%nat result_ptr st in
      outer_loop inputs n' (i + 1) result_ptr' st'
  end.

(** [auto i = 0] declares an [int]: the loop runs for the outer indices up
    to [INT_MAX], and [++i] overflows after that one if [outer] is larger. *)
Definition cat_contig_kernel_impl (result : Tensor) (tensors : list Tensor)
           (dim : nat) : exec unit :=
  rsz <~ lift (size result dim) ;;
  rsd <~ lift (stride result dim) ;;
  outer <~ lift (div64 (numel result) (Int64.mul rsz rsd)) ;;
  let result_data := data_ptr result in
  inputs <~ lift (collect_inputs dim tensors) ;;
  let result_ptr := result_data in
  fun st =>
    (snd (outer_loop inputs (Z.to_nat (Z.min outer (INT_MAX + 1))) 0
                     result_ptr st),
     if INT_MAX <? outer then Fault SignedOverflow else Done tt).

End Kernel.
End Serial.

(* ------------------------------------------------------------------ *)
(** ** The two revisions behind one entry point *)

(** Which revision of the file is built, and with what: the grain constant
    and the scheduler of [at::parallel_for], or the lane count of
    [Vec256<scalar_t>]. *)
Inductive revision : Type :=
| ParallelMemcpy (GRAIN_SIZE : Z) (schedule : Z -> Z -> Z -> list (Z * Z))
| SerialVec (Vec_size : Z).

(** [cat_contig_kernel]: the dispatch macro (declared outside these
    sources) instantiates [cat_contig_kernel_impl<scalar_t>] at the element
    type of [result]; the instantiation is given here by its
    [sizeof(scalar_t)]. *)
Definition cat_contig_kernel (v : revision) (sizeof_scalar : Z)
           (result : Tensor) (tensors : list Tensor) (dim : nat) : exec unit :=
  match v with
  | ParallelMemcpy G sched =>
      Parallel.cat_contig_kernel_impl sizeof_scalar G sched result tensors dim
  | SerialVec W =>
      Serial.cat_contig_kernel_impl sizeof_scalar W result tensors dim
  end.

(* ------------------------------------------------------------------ *)
(** ** Layout vocabulary of the specification *)

(** Row-major strides of a shape: the stride of an axis is the product of
    the extents of the axes after it. *)
Fixpoint contiguous_strides (shape : list Z) : list Z :=
  match shape with
  | [] => []
  | _ :: rest => prodZ rest :: contiguous_strides rest
  end.

Definition is_contiguous (t : Tensor) : Prop :=
  strides t = contiguous_strides (sizes t).

Definition extent (t : Tensor) (dim : nat) : Z := nth dim (sizes t) 0.

Definition stride_at (t : Tensor) (dim : nat) : Z := nth dim (strides t) 0.

(** Elements one input contributes per outer group. *)
Definition inner_size (t : Tensor) (dim : nat) : Z :=
  extent t dim * stride_at t dim.

Definition output_group_stride (result : Tensor) (dim : nat) : Z :=
  extent result dim * stride_at result dim.

Definition outer_count (result : Tensor) (dim : nat) : Z :=
  Z.quot (numel result) (output_group_stride result dim).

(** Two byte regions [[p, p+n)] and [[q, q+k)] share no address. *)
Definition regions_disjoint (p n q k : Z) : Prop :=
  n <= 0 \/ k <= 0 \/ p + n <= q \/ q + k <= p.

Record valid_tensor (dim : nat) (t : Tensor) : Prop := {
  vt_dim : (dim < length (sizes t))%nat;
  vt_contiguous : is_contiguous t;
  vt_nonneg : Forall (fun s => 0 <= s) (sizes t)
}.

(** Same extents as the output on every axis but [dim]. *)
Definition same_shape_except (dim : nat) (result t : Tensor) : Prop :=
  firstn dim (sizes t) = firstn dim (sizes result)
  /\ skipn (S dim) (sizes t) = skipn (S dim) (sizes result).

(** The preconditions of the fast path: contiguity, shape compatibility,
    an output that is not empty along or inside the concatenation axis,
    sizes that fit the machine integers, and inputs that do not overlap the
    output. *)
Record valid_cat (sizeof_scalar : Z) (result : Tensor)
       (tensors : list Tensor) (dim : nat) : Prop := {
  vc_sizeof : 0 < sizeof_scalar;
  vc_result : valid_tensor dim result;
  vc_inputs : Forall (valid_tensor dim) tensors;
  vc_shapes : Forall (same_shape_except dim result) tensors;
  vc_extent : sumZ (map (fun t => extent t dim) tensors) = extent result dim;
  vc_nonempty : 0 < output_group_stride result dim;
  vc_fits_group : output_group_stride result dim * sizeof_scalar <= Int64.max_signed;
  vc_fits_numel : numel result * sizeof_scalar <= Int64.max_signed;
  vc_no_overlap :
    Forall (fun t => regions_disjoint
                       (data_ptr t) (numel t * sizeof_scalar)
                       (data_ptr result) (numel result * sizeof_scalar))
           tensors
}.

(** A list of sub-ranges partitions [[lo, hi)]: together they hold every
    index of the range exactly once (in any order). *)
Definition partitions (lo hi : Z) (chunks : list (Z * Z)) : Prop :=
  Permutation (flat_map (fun r => rangeZ (fst r) (snd r)) chunks) (rangeZ lo hi).

(** What a revision needs besides a valid input: a scheduler that
    partitions the outer range and a grain constant that is a non-negative
    [int64_t]; a positive lane count and an outer count that the [int]
    counter can reach. *)
Definition valid_revision (v : revision) (result : Tensor) (dim : nat) : Prop :=
  match v with
  | ParallelMemcpy G sched =>
      0 <= G <= Int64.max_signed
      /\ partitions 0 (outer_count result dim)
           (sched 0 (outer_count result dim) (Z.quot G (output_group_stride result dim)))
  | SerialVec W =>
      0 < W /\ outer_count result dim <= INT_MAX
  end.

(** *** The copies the specification prescribes *)

Section Prescribed.

Variable sizeof_scalar : Z.
Variable result : Tensor.
Variable tensors : list Tensor.
Variable dim : nat.

(** The cursor walk of one outer group, in the words of the
    specification: read [inner_size] elements of each input at
    [input_base + i * inner_size], write them at the cursor, advance the
    cursor by [inner_size]. *)
Fixpoint group_walk (i : Z) (ts : list Tensor) (j : nat) (cursor : Z)
  : list copy_event :=
  match ts with
  | [] => []
  | t :: rest =>
      mkEvent i j cursor
              (data_ptr t + i * inner_size t dim * sizeof_scalar)
              (inner_size t dim * sizeof_scalar)
      :: group_walk i rest (S j) (cursor + inner_size t dim * sizeof_scalar)
  end.

Definition group_log (i : Z) : list copy_event :=
  group_walk i tensors 0%nat
    (data_ptr result + i * output_group_stride result dim * sizeof_scalar).

Definition prescribed_log (indices : list Z) : list copy_event :=
  flat_map group_log indices.

(** Elements the inputs before position [j] contribute to a group. *)
Definition run_offset (j : nat) : Z :=
  sumZ (map (fun t => inner_size t dim) (firstn j tensors)).

(** The copy of input [t], at position [j], for outer index [i]. *)
Definition run_event (i : Z) (j : nat) (t : Tensor) : copy_event :=
  mkEvent i j
    (data_ptr result
     + (i * output_group_stride result dim + run_offset j) * sizeof_scalar)
    (data_ptr t + i * inner_size t dim * sizeof_scalar)
    (inner_size t dim * sizeof_scalar).

(** The bytes input [t] contributes to outer group [i]. *)
Definition inner_run (m : mem) (i : Z) (t : Tensor) : list byte :=
  load_bytes m (data_ptr t + i * inner_size t dim * sizeof_scalar)
             (inner_size t dim * sizeof_scalar).

(** The inner runs of all inputs for outer group [i], in list order. *)
Definition group_run (m : mem) (i : Z) : list byte :=
  concat (map (inner_run m i) tensors).

(** All groups, by increasing outer index. *)
Definition cat_bytes (m : mem) : list byte :=
  concat (map (group_run m) (rangeZ 0 (outer_count result dim))).

(** The output buffer's bytes of outer group [i]. *)
Definition output_run (m : mem) (i : Z) : list byte :=
  load_bytes m
    (data_ptr result + i * output_group_stride result dim * sizeof_scalar)
    (output_group_stride result dim * sizeof_scalar).

Definition output_bytes (m : mem) : list byte :=
  load_bytes m (data_ptr result) (numel result * sizeof_scalar).

End Prescribed.

(** *** Vocabulary for logs and states *)

(** No copy of the log reads an address that a copy of the log writes. *)
Definition sources_intact (l : list copy_event) : Prop :=
  forall e e' a, In e l -> In e' l -> reads e a = true -> covers e' a = false.

(** No address is written by two different copies of the log. *)
Definition writes_once (l : list copy_event) : Prop :=
  forall e e' a, In e l -> In e' l ->
                 covers e a = true -> covers e' a = true -> e = e'.

(** The state after the copies [l] have been issued from [st]. *)
Definition extend (st : state) (l : list copy_event) : state :=
  {| st_mem := apply_log l (st_mem st); st_log := st_log st ++ l |}.

(** Same log, same byte at every address. *)
Definition state_eq (st1 st2 : state) : Prop :=
  mem_eq (st_mem st1) (st_mem st2) /\ st_log st1 = st_log st2.

(** *** Schedules *)

(** The whole range as one task (degree 1, fully sequential). *)
Definition single_task (begin end_ grain_size : Z) : list (Z * Z) :=
  [(begin, end_)].

(** One task per index. *)
Definition task_per_index (begin end_ grain_size : Z) : list (Z * Z) :=
  map (fun i => (i, i + 1)) (rangeZ begin end_).

(** One task per index, the last index first. *)
Definition task_per_index_reversed (begin end_ grain_size : Z) : list (Z * Z) :=
  rev (task_per_index begin end_ grain_size).

(** Consecutive chunks of [max(grain_size, 1)] indices; the last one may be
    shorter. *)
Fixpoint chunks_from (fuel : nat) (begin end_ step : Z) : list (Z * Z) :=
  match fuel with
  | O => []
  | S fuel' =>
      if begin <? end_ then
        (begin, Z.min end_ (begin + step))
        :: chunks_from fuel' (begin + step) end_ step
      else []
  end.

Definition grain_chunks (begin end_ grain_size : Z) : list (Z * Z) :=
  chunks_from (Z.to_nat (end_ - begin)) begin end_ (Z.max 1 grain_size).

(** *** Sample inputs *)

(** Little-endian [float] representations. *)
Definition f32_1 : list byte := [x00; x00; x80; x3f].
Definition f32_2 : list byte := [x00; x00; x00; x40].
Definition f32_3 : list byte := [x00; x00; x40; x40].
Definition f32_4 : list byte := [x00; x00; x80; x40].
Definition f32_5 : list byte := [x00; x00; xa0; x40].
Definition f32_6 : list byte := [x00; x00; xc0; x40].
Definition f32_7 : list byte := [x00; x00; xe0; x40].
Definition f32_8 : list byte := [x00; x00; x00; x41].
Definition f32_nan : list byte := [x00; x00; xc0; x7f].
Definition f32_pos_inf : list byte := [x00; x00; x80; x7f].
Definition f32_neg_inf : list byte := [x00; x00; x80; xff].
Definition f32_neg_zero : list byte := [x00; x00; x00; x80].

Definition zero_mem : mem := fun _ => x00.

(** The byte whose bits are the low eight bits of [z]. *)
Definition byte_of_Z (z : Z) : byte :=
  Byte.of_bits
    (Z.testbit z 0, (Z.testbit z 1, (Z.testbit z 2, (Z.testbit z 3,
    (Z.testbit z 4, (Z.testbit z 5, (Z.testbit z 6, Z.testbit z 7))))))).

(** A store that holds a different byte at neighbouring addresses. *)
Definition pattern_mem : mem := fun a => byte_of_Z a.

(** A single input of shape (3,5), axis 0. *)
Definition identity_A : Tensor := mkTensor [3; 5] [5; 1] 1000.
Definition identity_R : Tensor := mkTensor [3; 5] [5; 1] 3000.

(** Three inputs of width 1 along axis 1, ten rows each. *)
Definition narrow_A : Tensor := mkTensor [10; 1] [1; 1] 1000.
Definition narrow_B : Tensor := mkTensor [10; 1] [1; 1] 1100.
Definition narrow_C : Tensor := mkTensor [10; 1] [1; 1] 1200.
Definition narrow_R : Tensor := mkTensor [10; 3] [3; 1] 3000.

(** [A = [[1,2],[3,4]]], [B = [[5,6],[7,8]]], concatenated along axis 1
    into a 2x4 output. *)
Definition sample_A : Tensor := mkTensor [2; 2] [2; 1] 1000.
Definition sample_B : Tensor := mkTensor [2; 2] [2; 1] 2000.
Definition sample_R : Tensor := mkTensor [2; 4] [4; 1] 3000.

Definition sample_mem : mem :=
  store_bytes
    (store_bytes zero_mem 1000 (f32_1 ++ f32_2 ++ f32_3 ++ f32_4))
    2000 (f32_5 ++ f32_6 ++ f32_7 ++ f32_8).

(** [[NaN, +Inf]] and [[-Inf, -0.0]], concatenated along axis 1. *)
Definition special_A : Tensor := mkTensor [1; 2] [2; 1] 1000.
Definition special_B : Tensor := mkTensor [1; 2] [2; 1] 2000.
Definition special_R : Tensor := mkTensor [1; 4] [4; 1] 3000.

Definition special_mem : mem :=
  store_bytes
    (store_bytes zero_mem 1000 (f32_nan ++ f32_pos_inf))
    2000 (f32_neg_inf ++ f32_neg_zero).

(** An input with no element along the axis, before one with two. *)
Definition hollow_A : Tensor := mkTensor [1; 0] [0; 1] 1000.
Definition hollow_B : Tensor := mkTensor [1; 2] [2; 1] 2000.
Definition hollow_R : Tensor := mkTensor [1; 2] [2; 1] 3000.

(** An output with no element along the axis. *)
Definition empty_R : Tensor := mkTensor [2; 0] [0; 1] 3000.

(** The counter of the sequential revision can reach [outer]. *)
Definition counter_reaches (v : revision) (outer : Z) : Prop :=
  match v with
  | ParallelMemcpy _ _ => True
  | SerialVec _ => outer <= INT_MAX
  end.


(** *** Vocabulary for what the kernel checks and what it leaves alone *)

(** The accessors [size(dim)] and [stride(dim)] of [t] are in range. *)
Definition has_axis (dim : nat) (t : Tensor) : Prop :=
  (dim < length (sizes t))%nat /\ (dim < length (strides t))%nat.

(** Address [a] lies in the buffer of [t]. *)
Definition in_buffer (sizeof_scalar : Z) (t : Tensor) (a : Z) : Prop :=
  data_ptr t <= a < data_ptr t + numel t * sizeof_scalar.

(** *** More sample inputs *)

(** The sample store, with stale bytes in the output buffer. *)
Definition stale_mem : mem :=
  fun a => if in_range 3000 32 a then xff else sample_mem a.

(** No outer group: extent 0 on the axis before the concatenation axis. *)
Definition vacant_A : Tensor := mkTensor [0; 2] [2; 1] 1000.
Definition vacant_B : Tensor := mkTensor [0; 3] [3; 1] 2000.
Definition vacant_R : Tensor := mkTensor [0; 5] [5; 1] 3000.

(** An input without axis 1. *)
Definition flat_B : Tensor := mkTensor [4] [1] 2000.

(** A 2x4 intermediate buffer, a 2x1 input and a 2x5 output, for a
    concatenation done in two steps. *)
Definition joined_M : Tensor := mkTensor [2; 4] [4; 1] 4000.
Definition sample_C : Tensor := mkTensor [2; 1] [1; 1] 5000.
Definition wide_R : Tensor := mkTensor [2; 5] [5; 1] 6000.

(** *** Tactics for concrete inputs *)

Ltac solve_valid_tensor :=
  constructor; [simpl; lia | reflexivity | repeat constructor; lia].

Ltac solve_valid_cat :=
  constructor;
  [ lia
  | solve_valid_tensor
  | repeat (constructor; [solve_valid_tensor|]); constructor
  | repeat (constructor; [split; reflexivity|]); constructor
  | reflexivity
  | reflexivity
  | cbv; discriminate
  | cbv; discriminate
  | repeat (constructor; [unfold regions_disjoint; simpl; lia|]); constructor ].

(* ------------------------------------------------------------------ *)
(** * Properties *)

(** ** Arithmetic and list facts *)

Unset Implicit Arguments.

Lemma wrap_small z : Int64.in_range z -> Int64.wrap z = z.
Proof.
  unfold Int64.in_range, Int64.wrap, Int64.min_signed, Int64.max_signed,
    Int64.modulus.
  intros H. rewrite Z.mod_small; lia.
Qed.

Lemma mul_small a b : Int64.in_range (a * b) -> Int64.mul a b = a * b.
Proof. apply wrap_small. Qed.

Lemma to_size_t_small z :
  0 <= z <= Int64.max_signed -> Int64.to_size_t z = z.
Proof.
  unfold Int64.to_size_t, Int64.max_signed, Int64.modulus.
  intros H. apply Z.mod_small. lia.
Qed.

Lemma in_range_true lo len a :
  in_range lo len a = true <-> lo <= a < lo + len.
Proof.
  unfold in_range. rewrite andb_true_iff, Z.leb_le, Z.ltb_lt. tauto.
Qed.

Lemma in_range_false lo len a :
  in_range lo len a = false <-> (a < lo \/ lo + len <= a).
Proof.
  unfold in_range. rewrite andb_false_iff, Z.leb_gt, Z.ltb_ge. tauto.
Qed.

Lemma sumZ_cons x l : sumZ (x :: l) = x + sumZ l.
Proof. reflexivity. Qed.

Lemma prodZ_cons x l : prodZ (x :: l) = x * prodZ l.
Proof. reflexivity. Qed.

Lemma sumZ_app l1 l2 : sumZ (l1 ++ l2) = sumZ l1 + sumZ l2.
Proof.
  induction l1 as [|x l1 IH]; [reflexivity|].
  rewrite <- app_comm_cons, !sumZ_cons, IH. ring.
Qed.

Lemma prodZ_app l1 l2 : prodZ (l1 ++ l2) = prodZ l1 * prodZ l2.
Proof.
  induction l1 as [|x l1 IH].
  - change (prodZ []) with 1. rewrite Z.mul_1_l. reflexivity.
  - rewrite <- app_comm_cons, !prodZ_cons, IH. ring.
Qed.

Lemma prodZ_nonneg l : Forall (fun s => 0 <= s) l -> 0 <= prodZ l.
Proof.
  induction 1 as [|x l Hx Hl IH]; [cbv; discriminate|].
  rewrite prodZ_cons. nia.
Qed.

Lemma sumZ_nonneg l : Forall (fun s => 0 <= s) l -> 0 <= sumZ l.
Proof.
  induction 1 as [|x l Hx Hl IH]; [cbv; discriminate|].
  rewrite sumZ_cons. lia.
Qed.

Lemma nth_error_split_at (A : Type) (l : list A) n x :
  nth_error l n = Some x ->
  l = firstn n l ++ x :: skipn (S n) l.
Proof.
  revert l; induction n as [|n IH]; intros [|y l] H; simpl in *; try discriminate.
  - congruence.
  - f_equal. apply IH. exact H.
Qed.

Lemma nth_error_nth_Z (l : list Z) n x :
  nth_error l n = Some x -> nth n l 0 = x.
Proof. intros H. apply nth_error_nth. exact H. Qed.

Lemma nth_error_contiguous_strides shape d s :
  nth_error shape d = Some s ->
  nth_error (contiguous_strides shape) d = Some (prodZ (skipn (S d) shape)).
Proof.
  revert shape; induction d as [|d IH]; intros [|x shape] H; simpl in *;
    try discriminate.
  - reflexivity.
  - apply IH. exact H.
Qed.

Lemma rangeZ_nil lo hi : hi <= lo -> rangeZ lo hi = [].
Proof.
  intros H. unfold rangeZ. replace (Z.to_nat (hi - lo)) with O by lia. reflexivity.
Qed.

Lemma rangeZ_cons lo hi : lo < hi -> rangeZ lo hi = lo :: rangeZ (lo + 1) hi.
Proof.
  intros H. unfold rangeZ.
  replace (Z.to_nat (hi - lo)) with (S (Z.to_nat (hi - (lo + 1)))) by lia.
  simpl. f_equal; [lia|].
  rewrite <- seq_shift, map_map. apply map_ext. intros k. lia.
Qed.

Lemma in_rangeZ lo hi i : In i (rangeZ lo hi) <-> lo <= i < hi.
Proof.
  unfold rangeZ. rewrite in_map_iff. split.
  - intros [k [<- Hk]]. apply in_seq in Hk. lia.
  - intros H. exists (Z.to_nat (i - lo)). split; [lia|]. apply in_seq. lia.
Qed.

Lemma NoDup_map_inj (A B : Type) (f : A -> B) (l : list A) :
  (forall x y, f x = f y -> x = y) -> NoDup l -> NoDup (map f l).
Proof.
  intros Hinj Hl. induction Hl as [|x l Hx Hl IH]; simpl; constructor; auto.
  rewrite in_map_iff. intros [y [Hy Hin]]. apply Hinj in Hy. subst. auto.
Qed.

Lemma NoDup_rangeZ lo hi : NoDup (rangeZ lo hi).
Proof.
  unfold rangeZ. apply NoDup_map_inj.
  - intros x y H. lia.
  - apply seq_NoDup.
Qed.

Lemma rangeZ_snoc lo hi : lo <= hi -> rangeZ lo (hi + 1) = rangeZ lo hi ++ [hi].
Proof.
  intros H. unfold rangeZ.
  replace (Z.to_nat (hi + 1 - lo)) with (Z.to_nat (hi - lo) + 1)%nat by lia.
  rewrite seq_app, map_app. simpl. do 2 f_equal. lia.
Qed.

(** ** Layout of a valid tensor *)

Section TensorLayout.

Variable dim : nat.
Variable t : Tensor.
Hypothesis Ht : valid_tensor dim t.

Lemma valid_size : size t dim = Done (extent t dim).
Proof.
  unfold size, extent. destruct Ht as [Hd _ _].
  destruct (nth_error (sizes t) dim) as [s|] eqn:E.
  - rewrite (nth_error_nth_Z _ _ _ E). reflexivity.
  - apply nth_error_None in E. lia.
Qed.

Lemma valid_stride_at : stride_at t dim = prodZ (skipn (S dim) (sizes t)).
Proof.
  unfold stride_at. destruct Ht as [Hd Hc _].
  destruct (nth_error (sizes t) dim) as [s|] eqn:E.
  - apply nth_error_nth_Z. rewrite Hc.
    apply nth_error_contiguous_strides with (s := s). exact E.
  - apply nth_error_None in E. lia.
Qed.

Lemma valid_stride : stride t dim = Done (stride_at t dim).
Proof.
  unfold stride. destruct Ht as [Hd Hc _].
  destruct (nth_error (sizes t) dim) as [s|] eqn:E.
  - rewrite valid_stride_at. rewrite Hc.
    rewrite (nth_error_contiguous_strides _ _ _ E). reflexivity.
  - apply nth_error_None in E. lia.
Qed.

Lemma valid_sizes_split :
  sizes t = firstn dim (sizes t) ++ extent t dim :: skipn (S dim) (sizes t).
Proof.
  destruct Ht as [Hd _ _]. unfold extent.
  destruct (nth_error (sizes t) dim) as [s|] eqn:E.
  - rewrite (nth_error_nth_Z _ _ _ E). apply nth_error_split_at. exact E.
  - apply nth_error_None in E. lia.
Qed.

Lemma valid_numel :
  numel t = prodZ (firstn dim (sizes t)) * inner_size t dim.
Proof.
  unfold numel, inner_size. rewrite valid_stride_at.
  rewrite valid_sizes_split at 1. rewrite prodZ_app, prodZ_cons. ring.
Qed.

Lemma valid_extent_nonneg : 0 <= extent t dim.
Proof.
  destruct Ht as [Hd _ Hn]. unfold extent.
  rewrite Forall_forall in Hn. apply Hn. apply nth_In. exact Hd.
Qed.

Lemma valid_stride_nonneg : 0 <= stride_at t dim.
Proof.
  rewrite valid_stride_at. apply prodZ_nonneg.
  destruct Ht as [_ _ Hn]. rewrite Forall_forall in *.
  intros x Hx. apply Hn. rewrite <- (firstn_skipn (S dim)).
  apply in_or_app. right. exact Hx.
Qed.

Lemma valid_inner_nonneg : 0 <= inner_size t dim.
Proof.
  unfold inner_size. pose proof valid_extent_nonneg.
  pose proof valid_stride_nonneg. nia.
Qed.

Lemma valid_outer_nonneg : 0 <= prodZ (firstn dim (sizes t)).
Proof.
  apply prodZ_nonneg.
  destruct Ht as [_ _ Hn]. rewrite Forall_forall in *.
  intros x Hx. apply Hn. rewrite <- (firstn_skipn dim).
  apply in_or_app. left. exact Hx.
Qed.

End TensorLayout.

Lemma run_offset_S (tensors : list Tensor) (dim j : nat) (t : Tensor) :
  nth_error tensors j = Some t ->
  run_offset tensors dim (S j) = run_offset tensors dim j + inner_size t dim.
Proof.
  intros H. unfold run_offset.
  rewrite (nth_error_split_at _ _ _ _ H) at 1.
  assert (Hlen : length (firstn j tensors) = j).
  { apply firstn_length_le. apply Nat.lt_le_incl.
    apply nth_error_Some. congruence. }
  replace (S j) with (length (firstn j tensors) + 1)%nat by lia.
  rewrite firstn_app_2. simpl firstn.
  rewrite map_app, sumZ_app. simpl map. rewrite sumZ_cons.
  change (sumZ []) with 0. ring.
Qed.

(** ** Layout of a valid concatenation *)

Section CatLayout.

Variable sizeof_scalar : Z.
Variable result : Tensor.
Variable tensors : list Tensor.
Variable dim : nat.
Hypothesis Hv : valid_cat sizeof_scalar result tensors dim.

Local Abbreviation G := (output_group_stride result dim).
Local Abbreviation N := (outer_count result dim).

Lemma cat_outer_count : N = prodZ (firstn dim (sizes result)).
Proof.
  unfold N, outer_count. rewrite (valid_numel _ _ (vc_result Hv)).
  fold (output_group_stride result dim).
  apply Z.quot_mul. pose proof (vc_nonempty Hv). lia.
Qed.

Lemma cat_outer_nonneg : 0 <= N.
Proof. rewrite cat_outer_count. apply (valid_outer_nonneg _ _ (vc_result Hv)). Qed.

(** The division that computes the outer count is exact. *)
Lemma cat_numel : numel result = N * G.
Proof.
  rewrite cat_outer_count. apply (valid_numel _ _ (vc_result Hv)).
Qed.

Lemma cat_input (t : Tensor) :
  In t tensors ->
  valid_tensor dim t
  /\ stride_at t dim = stride_at result dim
  /\ numel t = N * inner_size t dim.
Proof.
  intros Hin.
  pose proof (proj1 (Forall_forall _ _) (vc_inputs Hv) _ Hin) as Ht.
  pose proof (proj1 (Forall_forall _ _) (vc_shapes Hv) _ Hin) as [Hf Hs].
  split; [exact Ht|]. split.
  - rewrite (valid_stride_at _ _ Ht), (valid_stride_at _ _ (vc_result Hv)).
    rewrite Hs. reflexivity.
  - rewrite (valid_numel _ _ Ht), cat_outer_count, Hf. reflexivity.
Qed.

Lemma cat_inner_sum_gen ts :
  (forall t, In t ts -> stride_at t dim = stride_at result dim) ->
  sumZ (map (fun t => inner_size t dim) ts)
  = sumZ (map (fun t => extent t dim) ts) * stride_at result dim.
Proof.
  induction ts as [|t ts IH]; intros H; [reflexivity|].
  simpl map. rewrite !sumZ_cons, IH by (intros; apply H; right; assumption).
  unfold inner_size. rewrite (H t) by (left; reflexivity). ring.
Qed.

(** Shape compatibility: the inner sizes add up to the output's group
    stride. *)
Lemma cat_inner_sum : sumZ (map (fun t => inner_size t dim) tensors) = G.
Proof.
  rewrite cat_inner_sum_gen.
  - rewrite (vc_extent Hv). reflexivity.
  - intros t Hin. apply (cat_input t Hin).
Qed.

Lemma cat_inners_nonneg :
  Forall (fun s => 0 <= s) (map (fun t => inner_size t dim) tensors).
Proof.
  apply Forall_forall. intros s Hs. apply in_map_iff in Hs.
  destruct Hs as [t [<- Hin]].
  apply valid_inner_nonneg. apply (cat_input t Hin).
Qed.

Lemma run_offset_all (j : nat) :
  (length tensors <= j)%nat -> run_offset tensors dim j = G.
Proof.
  intros H. unfold run_offset. rewrite firstn_all2 by exact H.
  apply cat_inner_sum.
Qed.

Lemma run_offset_mono (j k : nat) :
  (j <= k)%nat -> run_offset tensors dim j <= run_offset tensors dim k.
Proof.
  intros H. induction H as [|k Hk IH]; [lia|].
  destruct (nth_error tensors k) as [t|] eqn:E.
  - rewrite (run_offset_S _ _ _ _ E).
    assert (In t tensors) by (eapply nth_error_In; eauto).
    pose proof (valid_inner_nonneg _ _ (proj1 (cat_input t H))). lia.
  - apply nth_error_None in E.
    rewrite (run_offset_all (S k)) by lia.
    rewrite (run_offset_all k) in IH by lia. exact IH.
Qed.

Lemma run_offset_nonneg j : 0 <= run_offset tensors dim j.
Proof. apply (run_offset_mono 0%nat j). lia. Qed.

Lemma run_offset_le j : run_offset tensors dim j <= G.
Proof.
  rewrite <- (run_offset_all (Nat.max j (length tensors))) by lia.
  apply run_offset_mono. lia.
Qed.

(** The run of the input at position [j] lies inside the group. *)
Lemma run_inside (j : nat) (t : Tensor) :
  nth_error tensors j = Some t ->
  0 <= run_offset tensors dim j
  /\ 0 <= inner_size t dim
  /\ run_offset tensors dim j + inner_size t dim <= G.
Proof.
  intros H. split; [apply run_offset_nonneg|]. split.
  - apply valid_inner_nonneg.
    apply (cat_input t (nth_error_In _ _ H)).
  - rewrite <- (run_offset_S _ _ _ _ H). apply run_offset_le.
Qed.

End CatLayout.

(** ** Copies and logs *)

Lemma mem_eq_refl (m : mem) : mem_eq m m.
Proof. intros a. reflexivity. Qed.

Lemma mem_eq_sym (m1 m2 : mem) : mem_eq m1 m2 -> mem_eq m2 m1.
Proof. intros H a. symmetry. apply H. Qed.

Lemma mem_eq_trans (m1 m2 m3 : mem) :
  mem_eq m1 m2 -> mem_eq m2 m3 -> mem_eq m1 m3.
Proof. intros H1 H2 a. rewrite H1. apply H2. Qed.

Lemma memcpy_inside (m : mem) (dst src n a : Z) :
  in_range dst n a = true -> memcpy m dst src n a = m (src + (a - dst)).
Proof. intros H. unfold memcpy. rewrite H. reflexivity. Qed.

Lemma memcpy_outside (m : mem) (dst src n a : Z) :
  in_range dst n a = false -> memcpy m dst src n a = m a.
Proof. intros H. unfold memcpy. rewrite H. reflexivity. Qed.

Lemma memcpy_ext (m1 m2 : mem) (dst src n : Z) :
  mem_eq m1 m2 -> mem_eq (memcpy m1 dst src n) (memcpy m2 dst src n).
Proof.
  intros H a. unfold memcpy. destruct (in_range dst n a); apply H.
Qed.

Lemma apply_log_app (l1 l2 : list copy_event) (m : mem) :
  apply_log (l1 ++ l2) m = apply_log l2 (apply_log l1 m).
Proof. unfold apply_log. apply fold_left_app. Qed.

Lemma apply_log_ext (l : list copy_event) (m1 m2 : mem) :
  mem_eq m1 m2 -> mem_eq (apply_log l m1) (apply_log l m2).
Proof.
  revert m1 m2. induction l as [|e l IH]; intros m1 m2 H; [exact H|].
  simpl. apply IH. unfold apply_event. apply memcpy_ext. exact H.
Qed.

(** An address no copy writes keeps its byte. *)
Lemma apply_log_untouched (l : list copy_event) (m : mem) (a : Z) :
  (forall e, In e l -> covers e a = false) ->
  apply_log l m a = m a.
Proof.
  revert m. induction l as [|e l IH]; intros m H; [reflexivity|].
  simpl. rewrite IH by (intros e' He'; apply H; right; exact He').
  unfold apply_event. apply memcpy_outside. apply H. left. reflexivity.
Qed.

Lemma covers_reads (e : copy_event) (a : Z) :
  covers e a = true -> reads e (ev_src e + (a - ev_dst e)) = true.
Proof.
  unfold covers, reads. rewrite !in_range_true. lia.
Qed.

Lemma sources_intact_incl (l l' : list copy_event) :
  incl l' l -> sources_intact l -> sources_intact l'.
Proof. intros Hi H e e' a He He'. apply H; apply Hi; assumption. Qed.

Lemma writes_once_incl (l l' : list copy_event) :
  incl l' l -> writes_once l -> writes_once l'.
Proof. intros Hi H e e' a He He'. apply H; apply Hi; assumption. Qed.

(** A byte that a copy writes ends up holding the byte the copy read from
    the initial store. *)
Lemma apply_log_covered (l : list copy_event) (m : mem) (e : copy_event) (a : Z) :
  sources_intact l -> writes_once l ->
  In e l -> covers e a = true ->
  apply_log l m a = m (ev_src e + (a - ev_dst e)).
Proof.
  induction l as [|x l IH] using rev_ind; intros Hs Hw Hin Hc; [destruct Hin|].
  rewrite apply_log_app. simpl. unfold apply_event at 1.
  destruct (covers x a) eqn:Hx.
  - assert (x = e).
    { apply (Hw x e a); auto.
      apply in_or_app. right. left. reflexivity. }
    subst x. rewrite memcpy_inside by exact Hx.
    apply apply_log_untouched. intros e' He'.
    apply (Hs e e'); auto.
    + apply in_or_app. left. exact He'.
    + apply covers_reads. exact Hc.
  - rewrite memcpy_outside by exact Hx.
    apply IH.
    + apply sources_intact_incl with (l := l ++ [x]); auto.
      apply incl_appl, incl_refl.
    + apply writes_once_incl with (l := l ++ [x]); auto.
      apply incl_appl, incl_refl.
    + apply in_app_or in Hin. destruct Hin as [Hin|[Hin|[]]]; auto.
      subst x. congruence.
    + exact Hc.
Qed.

Lemma covered_or_not (l : list copy_event) (a : Z) :
  (exists e, In e l /\ covers e a = true)
  \/ (forall e, In e l -> covers e a = false).
Proof.
  induction l as [|x l [[e [He Hc]]|IH]].
  - right. intros e [].
  - left. exists e. split; [right|]; assumption.
  - destruct (covers x a) eqn:Hx.
    + left. exists x. split; [left; reflexivity|exact Hx].
    + right. intros e [<-|He]; auto.
Qed.

(** The final store does not depend on the order in which the copies of
    such a log take effect. *)
Lemma apply_log_permutation (l l' : list copy_event) (m : mem) :
  Permutation l l' -> sources_intact l -> writes_once l ->
  mem_eq (apply_log l m) (apply_log l' m).
Proof.
  intros Hp Hs Hw a.
  assert (Hi : incl l' l).
  { intros e He. apply Permutation_in with (l := l'); auto.
    apply Permutation_sym. exact Hp. }
  destruct (covered_or_not l a) as [[e [He Hc]]|Hn].
  - rewrite (apply_log_covered l m e a) by assumption.
    rewrite (apply_log_covered l' m e a); auto.
    + apply sources_intact_incl with (l := l); assumption.
    + apply writes_once_incl with (l := l); assumption.
    + apply Permutation_in with (l := l); assumption.
  - rewrite !apply_log_untouched; auto.
Qed.

Lemma extend_nil (st : state) : extend st [] = st.
Proof. destruct st. unfold extend. simpl. rewrite app_nil_r. reflexivity. Qed.

Lemma extend_app (st : state) (l1 l2 : list copy_event) :
  extend (extend st l1) l2 = extend st (l1 ++ l2).
Proof.
  unfold extend. simpl. rewrite apply_log_app, app_assoc. reflexivity.
Qed.

Lemma state_eq_refl (st : state) : state_eq st st.
Proof. split; [apply mem_eq_refl|reflexivity]. Qed.

Lemma state_eq_trans (s1 s2 s3 : state) :
  state_eq s1 s2 -> state_eq s2 s3 -> state_eq s1 s3.
Proof.
  intros [H1 L1] [H2 L2]. split; [eapply mem_eq_trans; eauto|congruence].
Qed.

Lemma extend_ext (s1 s2 : state) (l : list copy_event) :
  state_eq s1 s2 -> state_eq (extend s1 l) (extend s2 l).
Proof.
  intros [H L]. split; simpl.
  - apply apply_log_ext. exact H.
  - rewrite L. reflexivity.
Qed.

(** *** Loads *)

Lemma load_bytes_length (m : mem) (p n : Z) :
  length (load_bytes m p n) = Z.to_nat n.
Proof. unfold load_bytes. rewrite length_map, length_seq. reflexivity. Qed.

Lemma load_bytes_ext (m1 m2 : mem) (p q n : Z) :
  (forall k, 0 <= k < n -> m1 (p + k) = m2 (q + k)) ->
  load_bytes m1 p n = load_bytes m2 q n.
Proof.
  intros H. unfold load_bytes. apply map_ext_in. intros k Hk.
  apply in_seq in Hk. apply H. lia.
Qed.

Lemma map_seq_from (A : Type) (f : nat -> A) (a n : nat) :
  map f (seq a n) = map (fun k => f (a + k)%nat) (seq 0 n).
Proof.
  revert a f. induction n as [|n IH]; intros a f; [reflexivity|].
  simpl. f_equal; [f_equal; lia|].
  rewrite (IH (S a) f), (IH 1%nat (fun k => f (a + k)%nat)).
  apply map_ext. intros k. f_equal. lia.
Qed.

Lemma load_bytes_app (m : mem) (p n1 n2 : Z) :
  0 <= n1 -> 0 <= n2 ->
  load_bytes m p (n1 + n2) = load_bytes m p n1 ++ load_bytes m (p + n1) n2.
Proof.
  intros H1 H2. unfold load_bytes.
  replace (Z.to_nat (n1 + n2)) with (Z.to_nat n1 + Z.to_nat n2)%nat by lia.
  rewrite seq_app, map_app. f_equal.
  rewrite map_seq_from. apply map_ext. intros k. f_equal. lia.
Qed.

Lemma load_bytes_nth (m : mem) (p n : Z) (k : nat) :
  (k < Z.to_nat n)%nat -> nth k (load_bytes m p n) x00 = m (p + Z.of_nat k).
Proof.
  intros H. unfold load_bytes.
  set (f := fun k : nat => m (p + Z.of_nat k)).
  rewrite (nth_indep _ x00 (f 0%nat))
    by (rewrite length_map, length_seq; exact H).
  rewrite map_nth, seq_nth by exact H. reflexivity.
Qed.

(** Storing what was loaded is a copy. *)
Lemma store_load (m : mem) (p q n : Z) :
  mem_eq (store_bytes m p (load_bytes m q n)) (memcpy m p q n).
Proof.
  intros a. unfold store_bytes, memcpy.
  rewrite load_bytes_length.
  destruct (Z_le_gt_dec n 0) as [Hn|Hn].
  - replace (in_range p (Z.of_nat (Z.to_nat n)) a) with false
      by (symmetry; apply in_range_false; lia).
    replace (in_range p n a) with false
      by (symmetry; apply in_range_false; lia).
    reflexivity.
  - rewrite Z2Nat.id by lia.
    destruct (in_range p n a) eqn:E; [|reflexivity].
    apply in_range_true in E.
    rewrite load_bytes_nth by lia. f_equal. lia.
Qed.

(** ** The prescribed log *)

Lemma in_combine_seq (A : Type) (l : list A) (s j : nat) (x : A) :
  In (j, x) (combine (seq s (length l)) l)
  <-> (s <= j)%nat /\ nth_error l (j - s) = Some x.
Proof.
  revert s. induction l as [|y l IH]; intros s.
  - simpl. split; [intros []|]. intros [_ H]. destruct (j - s)%nat; discriminate.
  - simpl. rewrite IH. split.
    + intros [H|[H1 H2]].
      * inversion H; subst. rewrite Nat.sub_diag. split; [lia|reflexivity].
      * split; [lia|]. replace (j - s)%nat with (S (j - S s)) by lia. exact H2.
    + intros [H1 H2]. destruct (Nat.eq_dec s j) as [->|Hne].
      * left. rewrite Nat.sub_diag in H2. simpl in H2. congruence.
      * right. split; [lia|].
        replace (j - s)%nat with (S (j - S s)) in H2 by lia. exact H2.
Qed.

Section PrescribedLog.

Variable sizeof_scalar : Z.
Variable result : Tensor.
Variable tensors : list Tensor.
Variable dim : nat.

Local Abbreviation G := (output_group_stride result dim).
Local Abbreviation N := (outer_count result dim).
Local Abbreviation offset := (run_offset tensors dim).
Local Abbreviation event := (run_event sizeof_scalar result tensors dim).

Lemma group_walk_closed (i : Z) (ts pre : list Tensor) :
  tensors = pre ++ ts ->
  group_walk sizeof_scalar dim i ts (length pre)
    (data_ptr result + (i * G + offset (length pre)) * sizeof_scalar)
  = map (fun jt => event i (fst jt) (snd jt))
        (combine (seq (length pre) (length ts)) ts).
Proof.
  revert pre. induction ts as [|t ts IH]; intros pre Hsplit; [reflexivity|].
  cbn [group_walk length seq combine map fst snd]. f_equal.
  assert (Hnth : nth_error tensors (length pre) = Some t).
  { rewrite Hsplit, nth_error_app2, Nat.sub_diag by lia. reflexivity. }
  specialize (IH (pre ++ [t])).
  rewrite length_app in IH. cbn [length] in IH.
  rewrite Nat.add_1_r in IH.
  rewrite <- IH by (rewrite <- app_assoc; exact Hsplit).
  f_equal. rewrite (run_offset_S _ _ _ _ Hnth). ring.
Qed.

Lemma group_log_closed (i : Z) :
  group_log sizeof_scalar result tensors dim i
  = map (fun jt => event i (fst jt) (snd jt))
        (combine (seq 0 (length tensors)) tensors).
Proof.
  unfold group_log.
  pose proof (group_walk_closed i tensors [] eq_refl) as H.
  simpl length in H. rewrite <- H.
  f_equal. unfold offset, run_offset. simpl.
  change (sumZ []) with 0. fold G. ring.
Qed.

Lemma in_group_log (i : Z) (e : copy_event) :
  In e (group_log sizeof_scalar result tensors dim i)
  <-> exists j t, nth_error tensors j = Some t /\ e = event i j t.
Proof.
  rewrite group_log_closed, in_map_iff. split.
  - intros [[j t] [He Hin]]. apply in_combine_seq in Hin.
    rewrite Nat.sub_0_r in Hin. exists j, t. simpl in He. split; [tauto|auto].
  - intros [j [t [Hnth He]]]. exists (j, t). split; [auto|].
    apply in_combine_seq. rewrite Nat.sub_0_r. split; [lia|exact Hnth].
Qed.

Lemma in_prescribed_log (indices : list Z) (e : copy_event) :
  In e (prescribed_log sizeof_scalar result tensors dim indices)
  <-> exists i j t,
      In i indices /\ nth_error tensors j = Some t /\ e = event i j t.
Proof.
  unfold prescribed_log. rewrite in_flat_map. split.
  - intros [i [Hi He]]. apply in_group_log in He.
    destruct He as [j [t [Hnth He]]]. exists i, j, t. auto.
  - intros [i [j [t [Hi [Hnth He]]]]]. exists i. split; [exact Hi|].
    apply in_group_log. exists j, t. auto.
Qed.

Lemma group_log_outer (i : Z) (e : copy_event) :
  In e (group_log sizeof_scalar result tensors dim i) -> ev_outer e = i.
Proof.
  intros H. apply in_group_log in H. destruct H as [j [t [_ ->]]]. reflexivity.
Qed.

Hypothesis Hv : valid_cat sizeof_scalar result tensors dim.

(** Where the copy of input [j] for outer index [i] writes and reads. *)
Lemma event_regions (i : Z) (j : nat) (t : Tensor) :
  0 <= i < N -> nth_error tensors j = Some t ->
  (forall a, covers (event i j t) a = true ->
     data_ptr result + (i * G + offset j) * sizeof_scalar <= a
     /\ a < data_ptr result + (i * G + offset j + inner_size t dim) * sizeof_scalar
     /\ data_ptr result + i * (G * sizeof_scalar) <= a
     /\ a < data_ptr result + (i + 1) * (G * sizeof_scalar)
     /\ data_ptr result <= a
     /\ a < data_ptr result + numel result * sizeof_scalar)
  /\ (forall a, reads (event i j t) a = true ->
     data_ptr t <= a < data_ptr t + numel t * sizeof_scalar).
Proof.
  intros Hi Hnth.
  pose proof (vc_sizeof Hv) as Hsz.
  destruct (run_inside _ _ _ _ Hv _ _ Hnth) as [Ho [Hin Hle]].
  fold G offset in Ho, Hle.
  pose proof (cat_numel _ _ _ _ Hv) as Hnum. fold N G in Hnum.
  destruct (cat_input _ _ _ _ Hv t (nth_error_In _ _ Hnth)) as [_ [_ Hnt]].
  fold N in Hnt.
  split; intros a Ha.
  - unfold covers, event, run_event in Ha. simpl in Ha.
    apply in_range_true in Ha. fold G offset in Ha.
    assert (H1 : (i * G + offset j) * sizeof_scalar
                 >= i * (G * sizeof_scalar)) by nia.
    assert (H2 : (i * G + offset j + inner_size t dim) * sizeof_scalar
                 <= (i + 1) * (G * sizeof_scalar)) by nia.
    assert (H3 : (i + 1) * (G * sizeof_scalar)
                 <= numel result * sizeof_scalar).
    { rewrite Hnum. assert (0 <= G * sizeof_scalar) by nia. nia. }
    assert (H4 : 0 <= i * (G * sizeof_scalar)) by nia.
    lia.
  - unfold reads, event, run_event in Ha. simpl in Ha.
    apply in_range_true in Ha. rewrite Hnt.
    assert (0 <= i * inner_size t dim * sizeof_scalar) by nia.
    assert (i * inner_size t dim * sizeof_scalar
            + inner_size t dim * sizeof_scalar
            <= N * inner_size t dim * sizeof_scalar).
    { assert (0 <= inner_size t dim * sizeof_scalar) by nia. nia. }
    lia.
Qed.

Variable indices : list Z.
Hypothesis Hidx : forall i, In i indices -> 0 <= i < N.

Local Abbreviation L := (prescribed_log sizeof_scalar result tensors dim indices).

(** Inputs and output do not overlap, so no copy reads what a copy
    writes. *)
Lemma prescribed_sources_intact : sources_intact L.
Proof.
  intros e e' a He He' Hr.
  apply in_prescribed_log in He. destruct He as [i [j [t [Hi [Hnth ->]]]]].
  apply in_prescribed_log in He'.
  destruct He' as [i' [j' [t' [Hi' [Hnth' ->]]]]].
  destruct (covers (event i' j' t') a) eqn:Hc; [|reflexivity].
  exfalso.
  destruct (event_regions i j t (Hidx i Hi) Hnth) as [_ Hrd].
  destruct (event_regions i' j' t' (Hidx i' Hi') Hnth') as [Hcv _].
  specialize (Hrd a Hr). specialize (Hcv a Hc).
  pose proof (proj1 (Forall_forall _ _) (vc_no_overlap Hv) t
                    (nth_error_In _ _ Hnth)) as Hd.
  unfold regions_disjoint in Hd. lia.
Qed.

Lemma same_group (i i' a : Z) (c : Z) :
  0 < c ->
  i * c <= a < (i + 1) * c -> i' * c <= a < (i' + 1) * c -> i = i'.
Proof. intros Hc H1 H2. nia. Qed.

(** The runs of two different (outer index, input position) pairs share
    no address. *)
Lemma prescribed_writes_once : writes_once L.
Proof.
  intros e e' a He He' Hc Hc'.
  apply in_prescribed_log in He. destruct He as [i [j [t [Hi [Hnth ->]]]]].
  apply in_prescribed_log in He'.
  destruct He' as [i' [j' [t' [Hi' [Hnth' ->]]]]].
  pose proof (vc_sizeof Hv) as Hsz.
  pose proof (vc_nonempty Hv) as HG. fold G in HG.
  destruct (event_regions i j t (Hidx i Hi) Hnth) as [H1 _].
  destruct (event_regions i' j' t' (Hidx i' Hi') Hnth') as [H2 _].
  specialize (H1 a Hc). specialize (H2 a Hc').
  assert (i = i').
  { apply (same_group i i' (a - data_ptr result) (G * sizeof_scalar));
      [nia|lia|lia]. }
  subst i'.
  assert (j = j').
  { destruct (Nat.lt_trichotomy j j') as [Hlt|[Heq|Hlt]]; [|exact Heq|]; exfalso.
    - pose proof (run_offset_mono _ _ _ _ Hv (S j) j' Hlt) as Hm.
      rewrite (run_offset_S _ _ _ _ Hnth) in Hm. fold offset in Hm.
      assert ((i * G + offset j + inner_size t dim) * sizeof_scalar
              <= (i * G + offset j') * sizeof_scalar) by nia.
      lia.
    - pose proof (run_offset_mono _ _ _ _ Hv (S j') j Hlt) as Hm.
      rewrite (run_offset_S _ _ _ _ Hnth') in Hm. fold offset in Hm.
      assert ((i * G + offset j' + inner_size t' dim) * sizeof_scalar
              <= (i * G + offset j) * sizeof_scalar) by nia.
      lia. }
  subst j'. congruence.
Qed.

End PrescribedLog.

(** ** The parallel revision issues the prescribed log *)

Lemma prescribed_log_app (sizeof_scalar : Z) (result : Tensor)
      (tensors : list Tensor) (dim : nat) (l1 l2 : list Z) :
  prescribed_log sizeof_scalar result tensors dim (l1 ++ l2)
  = prescribed_log sizeof_scalar result tensors dim l1
    ++ prescribed_log sizeof_scalar result tensors dim l2.
Proof. unfold prescribed_log. apply flat_map_app. Qed.

Section Ranges.

Variable sizeof_scalar : Z.
Variable result : Tensor.
Variable tensors : list Tensor.
Variable dim : nat.
Hypothesis Hv : valid_cat sizeof_scalar result tensors dim.

Local Abbreviation G := (output_group_stride result dim).
Local Abbreviation N := (outer_count result dim).

Lemma group_stride_range : 0 < G /\ G <= Int64.max_signed.
Proof.
  pose proof (vc_nonempty Hv). pose proof (vc_fits_group Hv).
  pose proof (vc_sizeof Hv). split; [lia|nia].
Qed.

Lemma numel_range : 0 <= numel result <= Int64.max_signed.
Proof.
  pose proof (cat_numel _ _ _ _ Hv) as Hn.
  pose proof (cat_outer_nonneg _ _ _ _ Hv).
  pose proof group_stride_range.
  pose proof (vc_fits_numel Hv). pose proof (vc_sizeof Hv). split; [nia|nia].
Qed.

Lemma outer_range : 0 <= N <= Int64.max_signed.
Proof.
  pose proof (cat_numel _ _ _ _ Hv) as Hn.
  pose proof (cat_outer_nonneg _ _ _ _ Hv).
  pose proof group_stride_range. pose proof numel_range. split; [lia|nia].
Qed.

Lemma result_accessors :
  size result dim = Done (extent result dim)
  /\ stride result dim = Done (stride_at result dim)
  /\ Int64.mul (extent result dim) (stride_at result dim) = G
  /\ Int64.mul (stride_at result dim) (extent result dim) = G.
Proof.
  pose proof group_stride_range as HG.
  split; [apply valid_size, (vc_result Hv)|].
  split; [apply valid_stride, (vc_result Hv)|].
  unfold Int64.mul. rewrite (Z.mul_comm (stride_at result dim)).
  fold (output_group_stride result dim).
  rewrite wrap_small; [auto|].
  unfold Int64.in_range, Int64.min_signed. lia.
Qed.

Lemma outer_division : div64 (numel result) G = Done N.
Proof.
  pose proof group_stride_range as HG. pose proof outer_range as HN.
  unfold div64. destruct (Z.eqb_spec G 0) as [E|_]; [lia|].
  fold (outer_count result dim). rewrite wrap_small; [reflexivity|].
  unfold Int64.in_range, Int64.min_signed. lia.
Qed.

(** What the kernels compute for one input involves no wrap-around. *)
Lemma input_meta_accessors (t : Tensor) :
  In t tensors ->
  size t dim = Done (extent t dim)
  /\ stride t dim = Done (stride_at t dim)
  /\ Int64.mul (extent t dim) (stride_at t dim) = inner_size t dim
  /\ Int64.to_size_t (inner_size t dim * sizeof_scalar)
     = inner_size t dim * sizeof_scalar.
Proof.
  intros Hin.
  destruct (cat_input _ _ _ _ Hv t Hin) as [Ht [_ Hnt]].
  destruct (In_nth_error _ _ Hin) as [j Hj].
  destruct (run_inside _ _ _ _ Hv _ _ Hj) as [Ho [Hnn Hle]].
  pose proof group_stride_range as HG.
  pose proof (vc_fits_group Hv) as Hfit. pose proof (vc_sizeof Hv) as Hsz.
  split; [apply valid_size, Ht|].
  split; [apply valid_stride, Ht|].
  split.
  - apply mul_small. fold (inner_size t dim).
    unfold Int64.in_range, Int64.min_signed. lia.
  - apply to_size_t_small. split; [nia|].
    assert (inner_size t dim * sizeof_scalar <= G * sizeof_scalar) by nia.
    lia.
Qed.

Lemma input_index_mul (i : Z) (t : Tensor) :
  0 <= i < N -> In t tensors ->
  Int64.mul i (inner_size t dim) = i * inner_size t dim.
Proof.
  intros Hi Hin.
  destruct (In_nth_error _ _ Hin) as [j Hj].
  destruct (run_inside _ _ _ _ Hv _ _ Hj) as [Ho [Hnn Hle]].
  pose proof group_stride_range as HG. pose proof numel_range as HR.
  pose proof (cat_numel _ _ _ _ Hv) as Hnum.
  apply mul_small. unfold Int64.in_range, Int64.min_signed.
  assert (i * inner_size t dim <= N * G) by nia.
  assert (0 <= i * inner_size t dim) by nia. lia.
Qed.

Lemma input_accessors (i : Z) (t : Tensor) :
  0 <= i < N -> In t tensors ->
  size t dim = Done (extent t dim)
  /\ stride t dim = Done (stride_at t dim)
  /\ Int64.mul (extent t dim) (stride_at t dim) = inner_size t dim
  /\ Int64.mul i (inner_size t dim) = i * inner_size t dim
  /\ Int64.to_size_t (inner_size t dim * sizeof_scalar)
     = inner_size t dim * sizeof_scalar.
Proof.
  intros Hi Hin.
  destruct (input_meta_accessors t Hin) as [H1 [H2 [H3 H4]]].
  pose proof (input_index_mul i t Hi Hin). auto.
Qed.

Lemma outer_index_mul (i : Z) : 0 <= i < N -> Int64.mul i G = i * G.
Proof.
  intros Hi. pose proof group_stride_range as HG.
  pose proof numel_range as HR.
  pose proof (cat_numel _ _ _ _ Hv) as Hnum.
  apply mul_small. unfold Int64.in_range, Int64.min_signed.
  assert (i * G <= N * G) by nia. assert (0 <= i * G) by nia. lia.
Qed.

End Ranges.

Section ParallelRun.

Variable sizeof_scalar : Z.
Variable GRAIN_SIZE : Z.
Variable schedule : Z -> Z -> Z -> list (Z * Z).
Variable result : Tensor.
Variable tensors : list Tensor.
Variable dim : nat.
Hypothesis Hv : valid_cat sizeof_scalar result tensors dim.

Local Abbreviation G := (output_group_stride result dim).
Local Abbreviation N := (outer_count result dim).
Local Abbreviation log := (prescribed_log sizeof_scalar result tensors dim).

Lemma do_memcpy_extend (i : Z) (j : nat) (dst src n : Z) (st : state) :
  Parallel.do_memcpy i j dst src n st
  = (extend st [mkEvent i j dst src n], Done tt).
Proof. reflexivity. Qed.

Lemma par_copy_tensors (i : Z) (ts : list Tensor) :
  0 <= i < N -> incl ts tensors ->
  forall (j : nat) (cursor : Z) (st : state),
    Parallel.copy_tensors sizeof_scalar dim i ts j cursor st
    = (extend st (group_walk sizeof_scalar dim i ts j cursor), Done tt).
Proof.
  intros Hi. induction ts as [|t ts IH]; intros Hincl j cursor st.
  - simpl. unfold ret. rewrite extend_nil. reflexivity.
  - assert (Hin : In t tensors) by (apply Hincl; left; reflexivity).
    destruct (input_accessors _ _ _ _ Hv i t Hi Hin)
      as [Hs [Hd [Hm [Hmi Hz]]]].
    simpl. unfold bind_exec, lift. rewrite Hs, Hd, Hm, Hmi, Hz.
    rewrite do_memcpy_extend.
    rewrite IH by (intros x Hx; apply Hincl; right; exact Hx).
    rewrite extend_app. reflexivity.
Qed.

Lemma par_loop_body (i : Z) (st : state) :
  0 <= i < N ->
  Parallel.loop_body sizeof_scalar result tensors dim G i st
  = (extend st (group_log sizeof_scalar result tensors dim i), Done tt).
Proof.
  intros Hi. unfold Parallel.loop_body.
  rewrite (outer_index_mul _ _ _ _ Hv i Hi).
  rewrite par_copy_tensors by (auto using incl_refl).
  reflexivity.
Qed.

Lemma par_loop_from (n : nat) :
  forall (i : Z) (st : state),
    (forall k, i <= k < i + Z.of_nat n -> 0 <= k < N) ->
    Parallel.loop_from
      (Parallel.loop_body sizeof_scalar result tensors dim G) n i st
    = (extend st (log (rangeZ i (i + Z.of_nat n))), Done tt).
Proof.
  induction n as [|n IH]; intros i st H.
  - simpl. unfold ret. rewrite rangeZ_nil by lia. simpl.
    rewrite extend_nil. reflexivity.
  - simpl Parallel.loop_from. unfold bind_exec.
    rewrite par_loop_body by (apply H; lia).
    rewrite IH by (intros k Hk; apply H; lia).
    rewrite extend_app. do 2 f_equal.
    rewrite (rangeZ_cons i) by lia.
    replace (i + 1 + Z.of_nat n) with (i + Z.of_nat (S n)) by lia.
    reflexivity.
Qed.

Lemma par_loop_nd (start end_ : Z) (st : state) :
  (forall k, In k (rangeZ start end_) -> 0 <= k < N) ->
  Parallel.loop_nd sizeof_scalar result tensors dim G start end_ st
  = (extend st (log (rangeZ start end_)), Done tt).
Proof.
  intros H. unfold Parallel.loop_nd.
  destruct (Z_le_gt_dec end_ start) as [Hle|Hgt].
  - replace (Z.to_nat (end_ - start)) with O by lia. simpl. unfold ret.
    rewrite rangeZ_nil by lia. simpl.
    rewrite extend_nil. reflexivity.
  - rewrite par_loop_from.
    + rewrite Z2Nat.id by lia.
      replace (start + (end_ - start)) with end_ by lia. reflexivity.
    + intros k Hk. apply H. apply in_rangeZ. lia.
Qed.

Lemma par_chunks (chunks : list (Z * Z)) :
  forall (acc : exec unit) (st st1 : state),
    acc st = (st1, Done tt) ->
    (forall k, In k (flat_map (fun r => rangeZ (fst r) (snd r)) chunks) ->
               0 <= k < N) ->
    fold_left
      (fun acc (r : Z * Z) =>
         _ <~ acc ;;
         Parallel.loop_nd sizeof_scalar result tensors dim G (fst r) (snd r))
      chunks acc st
    = (extend st1
         (log (flat_map (fun r => rangeZ (fst r) (snd r)) chunks)),
       Done tt).
Proof.
  induction chunks as [|r chunks IH]; intros acc st st1 Hacc H.
  - simpl. rewrite extend_nil. exact Hacc.
  - simpl fold_left.
    rewrite (IH _ st (extend st1 (log (rangeZ (fst r) (snd r))))).
    + rewrite extend_app. simpl flat_map.
      rewrite prescribed_log_app. reflexivity.
    + unfold bind_exec. rewrite Hacc. apply par_loop_nd.
      intros k Hk. apply H. simpl. apply in_or_app. left. exact Hk.
    + intros k Hk. apply H. simpl. apply in_or_app. right. exact Hk.
Qed.

Hypothesis Hgrain : 0 <= GRAIN_SIZE <= Int64.max_signed.

Lemma par_partition_params :
  Parallel.partition_params GRAIN_SIZE result dim
  = Done (N, G, Z.quot GRAIN_SIZE G).
Proof.
  unfold Parallel.partition_params.
  destruct (result_accessors _ _ _ _ Hv) as [Hs [Hd [Hm1 Hm2]]].
  pose proof (group_stride_range _ _ _ _ Hv) as HG.
  rewrite Hs, Hd. simpl. rewrite Hm1, Hm2.
  rewrite (outer_division _ _ _ _ Hv). simpl.
  unfold div64. destruct (Z.eqb_spec G 0) as [E|_]; [lia|]. simpl.
  rewrite wrap_small; [reflexivity|].
  unfold Int64.in_range, Int64.min_signed.
  assert (0 <= Z.quot GRAIN_SIZE G) by (apply Z.quot_pos; lia).
  assert (Z.quot GRAIN_SIZE G <= GRAIN_SIZE).
  { rewrite Z.quot_div_nonneg by lia. apply Z.div_le_upper_bound; nia. }
  lia.
Qed.

Hypothesis Hsched :
  partitions 0 N (schedule 0 N (Z.quot GRAIN_SIZE G)).

Local Abbreviation indices :=
  (flat_map (fun r => rangeZ (fst r) (snd r))
            (schedule 0 N (Z.quot GRAIN_SIZE G))).

Lemma par_indices (k : Z) : In k indices -> 0 <= k < N.
Proof.
  intros H. apply in_rangeZ.
  apply Permutation_in with (l := indices); assumption.
Qed.

Lemma par_run (st : state) :
  Parallel.cat_contig_kernel_impl sizeof_scalar GRAIN_SIZE schedule
    result tensors dim st
  = (extend st (log indices), Done tt).
Proof.
  unfold Parallel.cat_contig_kernel_impl, bind_exec, lift.
  rewrite par_partition_params.
  unfold Parallel.parallel_for.
  apply par_chunks; [reflexivity|apply par_indices].
Qed.

End ParallelRun.

(** ** Scalar loop, vector map and [memcpy] move the same bytes *)

Lemma memcpy_empty (m : mem) (dst src n : Z) :
  n <= 0 -> mem_eq (memcpy m dst src n) m.
Proof.
  intros Hn a. apply memcpy_outside. apply in_range_false. lia.
Qed.

(** A copy of [n1] bytes followed by a copy of the next [n2] bytes is a copy
    of [n1 + n2] bytes, when source and destination do not overlap. *)
Lemma memcpy_join (m m1 m2 : mem) (p q n1 n2 : Z) :
  0 <= n1 -> 0 <= n2 ->
  regions_disjoint q (n1 + n2) p (n1 + n2) ->
  mem_eq m1 (memcpy m p q n1) ->
  mem_eq m2 (memcpy m1 (p + n1) (q + n1) n2) ->
  mem_eq m2 (memcpy m p q (n1 + n2)).
Proof.
  intros H1 H2 Hd Hm1 Hm2 a. rewrite Hm2. unfold memcpy at 1.
  destruct (in_range (p + n1) n2 a) eqn:E.
  - apply in_range_true in E. rewrite Hm1.
    rewrite memcpy_outside
      by (apply in_range_false; unfold regions_disjoint in Hd; lia).
    rewrite memcpy_inside by (apply in_range_true; lia).
    f_equal. lia.
  - apply in_range_false in E. rewrite Hm1. unfold memcpy.
    destruct (in_range p n1 a) eqn:E1.
    + apply in_range_true in E1.
      replace (in_range p (n1 + n2) a) with true
        by (symmetry; apply in_range_true; lia).
      reflexivity.
    + apply in_range_false in E1.
      replace (in_range p (n1 + n2) a) with false
        by (symmetry; apply in_range_false; lia).
      reflexivity.
Qed.

Section CopyPaths.

Variable sizeof_scalar : Z.
Variable Vec_size : Z.
Hypothesis Hsz : 0 < sizeof_scalar.
Hypothesis HW : 0 < Vec_size.

Local Abbreviation padd := (Serial.ptr_add sizeof_scalar).

Lemma scalar_loop_memcpy (result_ptr input_ptr : Z) (n : nat) :
  forall (k : Z) (m : mem),
    regions_disjoint (padd input_ptr k) (Z.of_nat n * sizeof_scalar)
                     (padd result_ptr k) (Z.of_nat n * sizeof_scalar) ->
    mem_eq (Serial.scalar_loop sizeof_scalar n k result_ptr input_ptr m)
           (memcpy m (padd result_ptr k) (padd input_ptr k)
                   (Z.of_nat n * sizeof_scalar)).
Proof.
  induction n as [|n IH]; intros k m Hd.
  - simpl. apply mem_eq_sym, memcpy_empty. lia.
  - simpl Serial.scalar_loop.
    replace (Z.of_nat (S n) * sizeof_scalar)
      with (sizeof_scalar + Z.of_nat n * sizeof_scalar) in * by lia.
    assert (Hpos : 0 <= Z.of_nat n * sizeof_scalar) by nia.
    eapply memcpy_join; [lia|exact Hpos|exact Hd| |].
    + unfold Serial.store_scalar, Serial.load_scalar. apply store_load.
    + replace (padd result_ptr k + sizeof_scalar) with (padd result_ptr (k + 1))
        by (unfold Serial.ptr_add; lia).
      replace (padd input_ptr k + sizeof_scalar) with (padd input_ptr (k + 1))
        by (unfold Serial.ptr_add; lia).
      apply IH. unfold regions_disjoint, Serial.ptr_add in *. lia.
Qed.

Lemma scalar_copy_memcpy (result_ptr input_ptr local_inner : Z) (m : mem) :
  0 <= local_inner ->
  regions_disjoint input_ptr (local_inner * sizeof_scalar)
                   result_ptr (local_inner * sizeof_scalar) ->
  mem_eq (Serial.scalar_copy sizeof_scalar result_ptr input_ptr local_inner m)
         (memcpy m result_ptr input_ptr (local_inner * sizeof_scalar)).
Proof.
  intros Hn Hd. unfold Serial.scalar_copy.
  pose proof (scalar_loop_memcpy result_ptr input_ptr
                (Z.to_nat local_inner) 0 m) as H.
  rewrite Z2Nat.id in H by exact Hn.
  unfold Serial.ptr_add in H. rewrite !Z.mul_0_l, !Z.add_0_r in H.
  apply H. exact Hd.
Qed.

(** A load of [count] lanes followed by a store of [count] lanes is a copy
    of [count] elements, whatever the other lanes hold. *)
Lemma vec_store_loadu (m : mem) (p q count : Z) :
  mem_eq (Serial.vec_store sizeof_scalar m p
            (Serial.loadu sizeof_scalar Vec_size m q count) count)
         (memcpy m p q (count * sizeof_scalar)).
Proof.
  unfold Serial.vec_store, Serial.loadu.
  rewrite firstn_app, load_bytes_length, Nat.sub_diag. simpl firstn at 2.
  rewrite app_nil_r, firstn_all2 by (rewrite load_bytes_length; lia).
  apply store_load.
Qed.

Lemma vec_loop_memcpy (output_data input_data bound : Z) (fuel : nat) :
  forall (q d : Z) (m : mem),
    0 <= q <= Z.of_nat fuel -> bound = d + q * Vec_size ->
    regions_disjoint (padd input_data d) ((bound - d) * sizeof_scalar)
                     (padd output_data d) ((bound - d) * sizeof_scalar) ->
    fst (Serial.vec_loop sizeof_scalar Vec_size (fun x => x) fuel bound d
                         output_data input_data m) = bound
    /\ mem_eq
         (snd (Serial.vec_loop sizeof_scalar Vec_size (fun x => x) fuel bound d
                               output_data input_data m))
         (memcpy m (padd output_data d) (padd input_data d)
                 ((bound - d) * sizeof_scalar)).
Proof.
  induction fuel as [|fuel IH]; intros q d m Hq Hb Hd.
  - assert (q = 0) by lia. subst q. simpl. split; [lia|].
    apply mem_eq_sym, memcpy_empty. nia.
  - simpl Serial.vec_loop. destruct (Z.ltb_spec d bound) as [Hlt|Hge].
    + assert (Hq1 : 1 <= q) by nia.
      destruct (IH (q - 1) (d + Vec_size)
                   (Serial.vec_store sizeof_scalar m (padd output_data d)
                      (Serial.loadu sizeof_scalar Vec_size m
                                    (padd input_data d) Vec_size) Vec_size))
        as [Hfst Hsnd].
      * lia.
      * nia.
      * unfold regions_disjoint, Serial.ptr_add in *. nia.
      * split; [exact Hfst|].
        replace ((bound - d) * sizeof_scalar)
          with (Vec_size * sizeof_scalar
                + (bound - (d + Vec_size)) * sizeof_scalar) in * by ring.
        assert (0 <= (bound - (d + Vec_size)) * sizeof_scalar) by nia.
        eapply memcpy_join; [nia|assumption|exact Hd|apply vec_store_loadu|].
        replace (padd output_data d + Vec_size * sizeof_scalar)
          with (padd output_data (d + Vec_size))
          by (unfold Serial.ptr_add; ring).
        replace (padd input_data d + Vec_size * sizeof_scalar)
          with (padd input_data (d + Vec_size))
          by (unfold Serial.ptr_add; ring).
        exact Hsnd.
    + assert (q = 0) by nia. subst q. simpl. split; [lia|].
      apply mem_eq_sym, memcpy_empty. nia.
Qed.

Lemma vec256_map_memcpy (output_data input_data size_ : Z) (m : mem) :
  0 <= size_ ->
  regions_disjoint input_data (size_ * sizeof_scalar)
                   output_data (size_ * sizeof_scalar) ->
  mem_eq (Serial.vec256_map sizeof_scalar Vec_size (fun x => x)
                            output_data input_data size_ m)
         (memcpy m output_data input_data (size_ * sizeof_scalar)).
Proof.
  intros Hn Hd. unfold Serial.vec256_map.
  rewrite Z.rem_mod_nonneg by lia.
  pose proof (Z.div_mod size_ Vec_size ltac:(lia)) as Hdm.
  pose proof (Z.mod_pos_bound size_ Vec_size HW) as Hmod.
  assert (Hquot : 0 <= size_ / Vec_size) by (apply Z.div_pos; lia).
  set (bound := size_ - size_ mod Vec_size) in *.
  assert (Hbound : bound = 0 + (size_ / Vec_size) * Vec_size)
    by (unfold bound; lia).
  assert (Hb0 : 0 <= bound) by nia.
  destruct (vec_loop_memcpy output_data input_data bound (Z.to_nat bound)
              (size_ / Vec_size) 0 m) as [Hfst Hsnd].
  - split; [lia|]. rewrite Z2Nat.id by lia. nia.
  - exact Hbound.
  - unfold regions_disjoint, Serial.ptr_add in *. nia.
  - destruct (Serial.vec_loop sizeof_scalar Vec_size (fun x => x)
                (Z.to_nat bound) bound 0 output_data input_data m)
      as [d m1] eqn:E.
    simpl in Hfst, Hsnd. subst d.
    unfold Serial.ptr_add in Hsnd.
    rewrite !Z.mul_0_l, !Z.add_0_r, Z.sub_0_r in Hsnd.
    destruct (Z.gtb_spec (size_ - bound) 0) as [Hr|Hr].
    + replace (size_ * sizeof_scalar)
        with (bound * sizeof_scalar + (size_ - bound) * sizeof_scalar) in *
        by ring.
      eapply memcpy_join; [nia|nia|exact Hd|exact Hsnd|].
      apply vec_store_loadu.
    + assert (bound = size_) by (unfold bound in *; lia).
      rewrite <- H. exact Hsnd.
Qed.

(** Whichever path the dispatch takes, the run is copied as by [memcpy]. *)
Lemma copy_run_memcpy (result_ptr input_ptr local_inner : Z) (m : mem) :
  0 <= local_inner ->
  regions_disjoint input_ptr (local_inner * sizeof_scalar)
                   result_ptr (local_inner * sizeof_scalar) ->
  mem_eq (Serial.copy_run sizeof_scalar Vec_size
                          result_ptr input_ptr local_inner m)
         (memcpy m result_ptr input_ptr (local_inner * sizeof_scalar)).
Proof.
  intros Hn Hd. unfold Serial.copy_run.
  destruct (local_inner <? Vec_size).
  - apply scalar_copy_memcpy; assumption.
  - apply vec256_map_memcpy; assumption.
Qed.

End CopyPaths.

(** ** The sequential revision issues the prescribed log *)

Section SerialRun.

Variable sizeof_scalar : Z.
Variable Vec_size : Z.
Variable result : Tensor.
Variable tensors : list Tensor.
Variable dim : nat.
Hypothesis Hv : valid_cat sizeof_scalar result tensors dim.
Hypothesis HW : 0 < Vec_size.

Local Abbreviation G := (output_group_stride result dim).
Local Abbreviation N := (outer_count result dim).
Local Abbreviation log := (prescribed_log sizeof_scalar result tensors dim).
Local Abbreviation meta :=
  (fun t : Tensor => InputMeta.make (data_ptr t) (inner_size t dim)).
Local Abbreviation cursor_at i j :=
  (data_ptr result + (i * G + run_offset tensors dim j) * sizeof_scalar).

Lemma serial_collect (ts : list Tensor) :
  incl ts tensors ->
  Serial.collect_inputs dim ts = Done (map meta ts).
Proof.
  induction ts as [|t ts IH]; intros Hincl; [reflexivity|].
  destruct (input_meta_accessors _ _ _ _ Hv t (Hincl t (or_introl eq_refl)))
    as [Hs [Hd [Hm _]]].
  simpl. rewrite Hd. simpl. unfold Serial.InputMeta_ctor.
  rewrite Hs. simpl. rewrite Hm.
  rewrite IH by (intros x Hx; apply Hincl; right; exact Hx).
  reflexivity.
Qed.

(** The run an input contributes is read outside the bytes it is written
    to. *)
Lemma run_disjoint (i : Z) (j : nat) (t : Tensor) :
  0 <= i < N -> nth_error tensors j = Some t ->
  regions_disjoint
    (data_ptr t + i * inner_size t dim * sizeof_scalar)
    (inner_size t dim * sizeof_scalar)
    (cursor_at i j) (inner_size t dim * sizeof_scalar).
Proof.
  intros Hi Hnth.
  destruct (Z_le_gt_dec (inner_size t dim * sizeof_scalar) 0) as [Hle|Hgt];
    [left; exact Hle|].
  destruct (event_regions _ _ _ _ Hv i j t Hi Hnth) as [Hcv Hrd].
  set (e := run_event sizeof_scalar result tensors dim i j t) in *.
  assert (Hc0 : covers e (ev_dst e) = true)
    by (apply in_range_true; simpl; lia).
  assert (Hc1 : covers e (ev_dst e + ev_len e - 1) = true)
    by (apply in_range_true; simpl; lia).
  assert (Hr0 : reads e (ev_src e) = true)
    by (apply in_range_true; simpl; lia).
  assert (Hr1 : reads e (ev_src e + ev_len e - 1) = true)
    by (apply in_range_true; simpl; lia).
  apply Hcv in Hc0, Hc1. apply Hrd in Hr0, Hr1. simpl in *.
  pose proof (proj1 (Forall_forall _ _) (vc_no_overlap Hv) t
                    (nth_error_In _ _ Hnth)) as Hd.
  unfold regions_disjoint in *. lia.
Qed.

Lemma serial_copy_inputs (i : Z) (ts : list Tensor) :
  0 <= i < N ->
  forall (pre : list Tensor) (st st0 : state),
    tensors = pre ++ ts -> state_eq st st0 ->
    fst (Serial.copy_inputs sizeof_scalar Vec_size i (map meta ts)
           (length pre) (cursor_at i (length pre)) st)
    = cursor_at i (length tensors)
    /\ state_eq
         (snd (Serial.copy_inputs sizeof_scalar Vec_size i (map meta ts)
                 (length pre) (cursor_at i (length pre)) st))
         (extend st0
            (group_walk sizeof_scalar dim i ts (length pre)
                        (cursor_at i (length pre)))).
Proof.
  intros Hi. induction ts as [|t ts IH]; intros pre st st0 Hsplit Heq.
  - simpl. rewrite extend_nil. split; [|exact Heq].
    rewrite Hsplit, app_nil_r. reflexivity.
  - assert (Hnth : nth_error tensors (length pre) = Some t).
    { rewrite Hsplit, nth_error_app2, Nat.sub_diag by lia. reflexivity. }
    assert (Hin : In t tensors) by (eapply nth_error_In; eauto).
    pose proof (input_index_mul _ _ _ _ Hv i t Hi Hin) as Hmul.
    destruct (run_inside _ _ _ _ Hv _ _ Hnth) as [_ [Hnn _]].
    assert (Hnext : Serial.ptr_add sizeof_scalar (cursor_at i (length pre))
                                   (inner_size t dim)
                    = cursor_at i (length (pre ++ [t]))).
    { rewrite length_app. simpl length. rewrite Nat.add_1_r.
      rewrite (run_offset_S _ _ _ _ Hnth). unfold Serial.ptr_add. ring. }
    simpl map. simpl Serial.copy_inputs. simpl InputMeta.inner_size.
    simpl InputMeta.data_ptr. rewrite Hmul, Hnext.
    set (input_ptr := Serial.ptr_add sizeof_scalar (data_ptr t)
                                     (i * inner_size t dim)).
    set (ev := mkEvent i (length pre) (cursor_at i (length pre)) input_ptr
                       (inner_size t dim * sizeof_scalar)).
    assert (Hstep :
      state_eq (Serial.do_copy sizeof_scalar Vec_size i (length pre)
                  (cursor_at i (length pre)) input_ptr (inner_size t dim) st)
               (extend st0 [ev])).
    { destruct Heq as [Hmem Hlog]. split; simpl.
      - eapply mem_eq_trans.
        + apply copy_run_memcpy; [exact (vc_sizeof Hv)|exact HW|exact Hnn|].
          apply run_disjoint; assumption.
        + unfold apply_event. simpl. apply memcpy_ext. exact Hmem.
      - rewrite Hlog. reflexivity. }
    specialize (IH (pre ++ [t]) _ _
                   ltac:(rewrite <- app_assoc; exact Hsplit) Hstep).
    rewrite length_app in IH. simpl length in IH.
    rewrite Nat.add_1_r in IH.
    rewrite length_app in *. simpl length in *. rewrite Nat.add_1_r in *.
    destruct IH as [IH1 IH2]. split; [exact IH1|].
    rewrite extend_app in IH2. simpl app in IH2.
    simpl group_walk. rewrite <- Hnext in IH2 at 2.
    exact IH2.
Qed.

Lemma cursor_at_start (i : Z) :
  cursor_at i 0%nat = data_ptr result + i * G * sizeof_scalar.
Proof.
  unfold run_offset. simpl. change (sumZ []) with 0. ring.
Qed.

Lemma cursor_at_end (i : Z) :
  cursor_at i (length tensors) = cursor_at (i + 1) 0%nat.
Proof.
  rewrite (run_offset_all _ _ _ _ Hv (length tensors)) by lia.
  unfold run_offset. simpl. change (sumZ []) with 0. ring.
Qed.

Lemma serial_outer_loop (n : nat) :
  forall (i : Z) (st st0 : state),
    0 <= i -> i + Z.of_nat n <= N -> state_eq st st0 ->
    state_eq
      (snd (Serial.outer_loop sizeof_scalar Vec_size (map meta tensors)
              n i (cursor_at i 0%nat) st))
      (extend st0 (log (rangeZ i (i + Z.of_nat n)))).
Proof.
  induction n as [|n IH]; intros i st st0 Hi Hn Heq.
  - simpl. rewrite rangeZ_nil by lia. simpl. rewrite extend_nil. exact Heq.
  - simpl Serial.outer_loop.
    destruct (serial_copy_inputs i tensors ltac:(lia) [] st st0 eq_refl Heq)
      as [Hfst Hsnd].
    simpl length in Hfst, Hsnd.
    destruct (Serial.copy_inputs sizeof_scalar Vec_size i (map meta tensors)
                0 (cursor_at i 0%nat) st) as [rp st1] eqn:E.
    simpl in Hfst, Hsnd. subst rp. rewrite cursor_at_end.
    specialize (IH (i + 1) st1 _ ltac:(lia) ltac:(lia) Hsnd).
    rewrite extend_app in IH.
    rewrite (rangeZ_cons i) by lia.
    replace (i + Z.of_nat (S n)) with (i + 1 + Z.of_nat n) by lia.
    rewrite (cursor_at_start i) in IH. exact IH.
Qed.

Lemma serial_unfold (st : state) :
  Serial.cat_contig_kernel_impl sizeof_scalar Vec_size result tensors dim st
  = (snd (Serial.outer_loop sizeof_scalar Vec_size (map meta tensors)
            (Z.to_nat (Z.min N (INT_MAX + 1))) 0 (data_ptr result) st),
     if INT_MAX <? N then Fault SignedOverflow else Done tt).
Proof.
  unfold Serial.cat_contig_kernel_impl, bind_exec, lift.
  destruct (result_accessors _ _ _ _ Hv) as [Hs [Hd [Hm1 _]]].
  rewrite Hs, Hd, Hm1.
  rewrite (outer_division _ _ _ _ Hv).
  rewrite serial_collect by apply incl_refl. reflexivity.
Qed.

Hypothesis Hint : N <= INT_MAX.

Lemma serial_run (st : state) :
  exists st',
    Serial.cat_contig_kernel_impl sizeof_scalar Vec_size result tensors dim st
    = (st', Done tt)
    /\ state_eq st' (extend st (log (rangeZ 0 N))).
Proof.
  rewrite serial_unfold.
  destruct (Z.ltb_spec INT_MAX N) as [Hbig|_]; [lia|].
  rewrite Z.min_l by lia.
  eexists. split; [reflexivity|].
  pose proof (outer_range _ _ _ _ Hv) as HN.
  pose proof (serial_outer_loop (Z.to_nat N) 0 st st
                ltac:(lia) ltac:(lia) (state_eq_refl st)) as H.
  rewrite cursor_at_start in H. rewrite Z2Nat.id in H by lia.
  replace (data_ptr result + 0 * G * sizeof_scalar) with (data_ptr result)
    in H by ring.
  exact H.
Qed.

End SerialRun.

(** ** Schedules that partition the range *)

Lemma single_task_partitions (lo hi g : Z) :
  partitions lo hi (single_task lo hi g).
Proof.
  unfold partitions, single_task. simpl. rewrite app_nil_r.
  apply Permutation_refl.
Qed.

Lemma task_per_index_flat (l : list Z) :
  flat_map (fun r : Z * Z => rangeZ (fst r) (snd r))
           (map (fun i => (i, i + 1)) l) = l.
Proof.
  induction l as [|i l IH]; [reflexivity|].
  simpl. rewrite IH, (rangeZ_cons i) by lia. rewrite rangeZ_nil by lia.
  reflexivity.
Qed.

Lemma task_per_index_partitions (lo hi g : Z) :
  partitions lo hi (task_per_index lo hi g).
Proof.
  unfold partitions, task_per_index. rewrite task_per_index_flat.
  apply Permutation_refl.
Qed.

Lemma task_per_index_reversed_partitions (lo hi g : Z) :
  partitions lo hi (task_per_index_reversed lo hi g).
Proof.
  unfold partitions, task_per_index_reversed, task_per_index.
  rewrite <- map_rev, task_per_index_flat.
  apply Permutation_sym, Permutation_rev.
Qed.

Lemma rangeZ_split (lo mid hi : Z) :
  lo <= mid <= hi -> rangeZ lo hi = rangeZ lo mid ++ rangeZ mid hi.
Proof.
  intros H. unfold rangeZ.
  replace (Z.to_nat (hi - lo))
    with (Z.to_nat (mid - lo) + Z.to_nat (hi - mid))%nat by lia.
  rewrite seq_app, map_app. f_equal.
  rewrite map_seq_from. apply map_ext. intros k. lia.
Qed.

Lemma chunks_from_flat (step : Z) (fuel : nat) :
  0 < step ->
  forall lo hi : Z,
    hi - lo <= Z.of_nat fuel ->
    flat_map (fun r : Z * Z => rangeZ (fst r) (snd r))
             (chunks_from fuel lo hi step)
    = rangeZ lo hi.
Proof.
  intros Hs. induction fuel as [|fuel IH]; intros lo hi H.
  - simpl. rewrite rangeZ_nil by lia. reflexivity.
  - simpl. destruct (Z.ltb_spec lo hi) as [Hlt|Hge].
    + simpl. destruct (Z_le_gt_dec hi (lo + step)) as [Hle|Hgt].
      * rewrite Z.min_l by lia.
        rewrite IH by lia. rewrite (rangeZ_nil (lo + step) hi) by lia.
        apply app_nil_r.
      * rewrite Z.min_r by lia. rewrite IH by lia.
        symmetry. apply rangeZ_split. lia.
    + rewrite rangeZ_nil by lia. reflexivity.
Qed.

Lemma grain_chunks_partitions (lo hi g : Z) :
  partitions lo hi (grain_chunks lo hi g).
Proof.
  unfold partitions, grain_chunks.
  rewrite chunks_from_flat by lia. apply Permutation_refl.
Qed.

(** ** Every revision issues the prescribed copies *)

Section Runs.

Variable sizeof_scalar : Z.
Variable result : Tensor.
Variable tensors : list Tensor.
Variable dim : nat.
Hypothesis Hv : valid_cat sizeof_scalar result tensors dim.

Local Abbreviation G := (output_group_stride result dim).
Local Abbreviation N := (outer_count result dim).
Local Abbreviation log := (prescribed_log sizeof_scalar result tensors dim).

Lemma kernel_runs (v : revision) (st : state) :
  valid_revision v result dim ->
  exists (st' : state) (indices : list Z),
    cat_contig_kernel v sizeof_scalar result tensors dim st = (st', Done tt)
    /\ Permutation indices (rangeZ 0 N)
    /\ state_eq st' (extend st (log indices)).
Proof.
  destruct v as [GRAIN sched|W]; intros Hr; simpl in Hr.
  - destruct Hr as [Hg Hp].
    exists (extend st
              (log (flat_map (fun r => rangeZ (fst r) (snd r))
                             (sched 0 N (Z.quot GRAIN G))))),
           (flat_map (fun r => rangeZ (fst r) (snd r))
                     (sched 0 N (Z.quot GRAIN G))).
    split; [|split].
    + simpl. apply par_run; assumption.
    + exact Hp.
    + apply state_eq_refl.
  - destruct Hr as [HW Hint].
    destruct (serial_run _ _ _ _ _ Hv HW Hint st) as [st' [Hrun Heq]].
    exists st', (rangeZ 0 N). split; [exact Hrun|].
    split; [apply Permutation_refl|exact Heq].
Qed.

Variable indices : list Z.
Hypothesis Hperm : Permutation indices (rangeZ 0 N).

Lemma indices_in_range (i : Z) : In i indices <-> 0 <= i < N.
Proof.
  rewrite <- in_rangeZ. split; intros H.
  - apply Permutation_in with (l := indices); assumption.
  - apply Permutation_in with (l := rangeZ 0 N);
      [apply Permutation_sym|]; assumption.
Qed.

Lemma indices_NoDup : NoDup indices.
Proof.
  apply Permutation_NoDup with (l := rangeZ 0 N).
  - apply Permutation_sym. exact Hperm.
  - apply NoDup_rangeZ.
Qed.

Lemma log_sources_intact : sources_intact (log indices).
Proof.
  apply prescribed_sources_intact; [exact Hv|].
  intros i Hi. apply indices_in_range. exact Hi.
Qed.

Lemma log_writes_once : writes_once (log indices).
Proof.
  apply prescribed_writes_once; [exact Hv|].
  intros i Hi. apply indices_in_range. exact Hi.
Qed.

(** The byte a copy writes is the byte it read from the initial store. *)
Lemma log_copies (m : mem) (i : Z) (j : nat) (t : Tensor) (k : Z) :
  0 <= i < N -> nth_error tensors j = Some t ->
  0 <= k < inner_size t dim * sizeof_scalar ->
  apply_log (log indices) m
    (data_ptr result
     + (i * G + run_offset tensors dim j) * sizeof_scalar + k)
  = m (data_ptr t + i * inner_size t dim * sizeof_scalar + k).
Proof.
  intros Hi Hnth Hk.
  set (e := run_event sizeof_scalar result tensors dim i j t).
  rewrite (apply_log_covered (log indices) m e).
  - simpl. f_equal. lia.
  - apply log_sources_intact.
  - apply log_writes_once.
  - apply in_prescribed_log. exists i, j, t.
    split; [apply indices_in_range; exact Hi|auto].
  - apply in_range_true. simpl. lia.
Qed.

End Runs.

(** ** Reconstruction *)

Section Reconstruction.

Variable sizeof_scalar : Z.
Variable result : Tensor.
Variable tensors : list Tensor.
Variable dim : nat.
Hypothesis Hv : valid_cat sizeof_scalar result tensors dim.

Local Abbreviation G := (output_group_stride result dim).
Local Abbreviation N := (outer_count result dim).
Local Abbreviation log := (prescribed_log sizeof_scalar result tensors dim).
Local Abbreviation cursor_at i j :=
  (data_ptr result + (i * G + run_offset tensors dim j) * sizeof_scalar).

Variable indices : list Z.
Hypothesis Hperm : Permutation indices (rangeZ 0 N).

Variables m m' : mem.
Hypothesis Hm : mem_eq m' (apply_log (log indices) m).

Lemma suffix_runs (i : Z) (ts : list Tensor) :
  0 <= i < N ->
  forall pre : list Tensor,
    tensors = pre ++ ts ->
    load_bytes m' (cursor_at i (length pre))
               (sumZ (map (fun t => inner_size t dim) ts) * sizeof_scalar)
    = concat (map (inner_run sizeof_scalar dim m i) ts).
Proof.
  intros Hi. pose proof (vc_sizeof Hv) as Hsz.
  induction ts as [|t ts IH]; intros pre Hsplit; [reflexivity|].
  assert (Hnth : nth_error tensors (length pre) = Some t).
  { rewrite Hsplit, nth_error_app2, Nat.sub_diag by lia. reflexivity. }
  destruct (run_inside _ _ _ _ Hv _ _ Hnth) as [_ [Hnn _]].
  assert (Hrest : 0 <= sumZ (map (fun t => inner_size t dim) ts)).
  { apply sumZ_nonneg. apply Forall_forall. intros s Hs.
    apply in_map_iff in Hs. destruct Hs as [u [<- Hu]].
    apply valid_inner_nonneg.
    apply (cat_input _ _ _ _ Hv u). rewrite Hsplit.
    apply in_or_app. right. right. exact Hu. }
  simpl map. rewrite sumZ_cons, (Z.mul_add_distr_r (inner_size t dim)).
  rewrite load_bytes_app by nia. simpl concat. f_equal.
  - unfold inner_run. apply load_bytes_ext. intros k Hk.
    rewrite Hm. apply log_copies; assumption.
  - specialize (IH (pre ++ [t])). rewrite length_app in IH.
    simpl length in IH. rewrite Nat.add_1_r in IH.
    rewrite <- IH by (rewrite <- app_assoc; exact Hsplit).
    f_equal. rewrite (run_offset_S _ _ _ _ Hnth). ring.
Qed.

(** The output's inner run of an outer index is the concatenation of the
    inputs' inner runs. *)
Lemma group_reconstructed (i : Z) :
  0 <= i < N ->
  output_run sizeof_scalar result dim m' i
  = group_run sizeof_scalar tensors dim m i.
Proof.
  intros Hi. unfold output_run, group_run.
  rewrite <- (suffix_runs i tensors Hi [] eq_refl).
  rewrite (cat_inner_sum _ _ _ _ Hv). f_equal.
  unfold run_offset. simpl. change (sumZ []) with 0. ring.
Qed.

Lemma groups_reconstructed (n : nat) :
  forall i : Z,
    0 <= i -> i + Z.of_nat n <= N ->
    load_bytes m' (data_ptr result + i * G * sizeof_scalar)
               (Z.of_nat n * (G * sizeof_scalar))
    = concat (map (group_run sizeof_scalar tensors dim m)
                  (rangeZ i (i + Z.of_nat n))).
Proof.
  pose proof (vc_sizeof Hv) as Hsz. pose proof (vc_nonempty Hv) as HG.
  induction n as [|n IH]; intros i Hi Hn.
  - rewrite rangeZ_nil by lia. reflexivity.
  - replace (Z.of_nat (S n) * (G * sizeof_scalar))
      with (G * sizeof_scalar + Z.of_nat n * (G * sizeof_scalar)) by lia.
    replace (i + Z.of_nat (S n)) with (i + 1 + Z.of_nat n) by lia.
    rewrite (rangeZ_cons i) by lia. cbn [map concat].
    rewrite load_bytes_app by nia. f_equal.
    + apply group_reconstructed. lia.
    + rewrite <- IH by lia. f_equal. ring.
Qed.

(** All groups, by increasing outer index, are the output buffer. *)
Lemma output_reconstructed :
  output_bytes sizeof_scalar result m'
  = cat_bytes sizeof_scalar result tensors dim m.
Proof.
  unfold output_bytes, cat_bytes.
  pose proof (outer_range _ _ _ _ Hv) as HN.
  pose proof (groups_reconstructed (Z.to_nat N) 0 ltac:(lia) ltac:(lia)) as H.
  rewrite Z2Nat.id in H by lia. simpl in H. rewrite <- H.
  rewrite (cat_numel _ _ _ _ Hv). f_equal; ring.
Qed.

End Reconstruction.

(** C1.  For every valid list of contiguous input buffers, the kernel (either
    revision) returns, and in the store it returns the output's inner run of
    every outer index is the concatenation, in input-list order, of the
    inputs' inner runs for that index; the groups of all outer indices, by
    increasing index, are the entire output buffer. *)
Theorem cat_reconstructs_output
        (v : revision) (sizeof_scalar : Z) (result : Tensor)
        (tensors : list Tensor) (dim : nat) (m : mem) :
  valid_cat sizeof_scalar result tensors dim ->
  valid_revision v result dim ->
  exists st' : state,
    cat_contig_kernel v sizeof_scalar result tensors dim (mkState m []) = (st', Done tt)
    /\ (forall i : Z,
           0 <= i < outer_count result dim ->
           output_run sizeof_scalar result dim (st_mem st') i
           = group_run sizeof_scalar tensors dim m i)
    /\ output_bytes sizeof_scalar result (st_mem st')
       = cat_bytes sizeof_scalar result tensors dim m.
Proof.
  intros Hv Hr.
  destruct (kernel_runs _ _ _ _ Hv v (mkState m []) Hr)
    as [st' [indices [Hrun [Hperm [Hmem _]]]]].
  simpl in Hmem. exists st'. split; [exact Hrun|]. split.
  - intros i Hi.
    apply (group_reconstructed _ _ _ _ Hv indices Hperm m); assumption.
  - apply (output_reconstructed _ _ _ _ Hv indices Hperm m); assumption.
Qed.

(** *** The sample inputs are valid *)

Lemma sample_valid : valid_cat 4 sample_R [sample_A; sample_B] 1.
Proof. solve_valid_cat. Qed.

Lemma special_valid : valid_cat 4 special_R [special_A; special_B] 1.
Proof. solve_valid_cat. Qed.

Lemma hollow_valid : valid_cat 4 hollow_R [hollow_A; hollow_B] 1.
Proof. solve_valid_cat. Qed.

Lemma serial_revision_valid (W : Z) (result : Tensor) (dim : nat) :
  0 < W -> outer_count result dim <= INT_MAX ->
  valid_revision (SerialVec W) result dim.
Proof. intros H1 H2. split; assumption. Qed.

Lemma grain_revision_valid (GRAIN : Z) (result : Tensor) (dim : nat) :
  0 <= GRAIN <= Int64.max_signed ->
  valid_revision (ParallelMemcpy GRAIN grain_chunks) result dim.
Proof. intros H. split; [exact H|apply grain_chunks_partitions]. Qed.

Lemma reversed_revision_valid (GRAIN : Z) (result : Tensor) (dim : nat) :
  0 <= GRAIN <= Int64.max_signed ->
  valid_revision (ParallelMemcpy GRAIN task_per_index_reversed) result dim.
Proof.
  intros H. split; [exact H|apply task_per_index_reversed_partitions].
Qed.

Lemma single_revision_valid (GRAIN : Z) (result : Tensor) (dim : nat) :
  0 <= GRAIN <= Int64.max_signed ->
  valid_revision (ParallelMemcpy GRAIN single_task) result dim.
Proof. intros H. split; [exact H|apply single_task_partitions]. Qed.

Lemma grain_32768 : 0 <= 32768 <= Int64.max_signed.
Proof. cbv. split; discriminate. Qed.

Lemma cat_reconstructs_output_witness :
  exists st' : state,
    cat_contig_kernel (ParallelMemcpy 32768 task_per_index_reversed) 4
               sample_R [sample_A; sample_B] 1 (mkState sample_mem [])
    = (st', Done tt)
    /\ output_bytes 4 sample_R (st_mem st')
       = (f32_1 ++ f32_2 ++ f32_5 ++ f32_6)
         ++ (f32_3 ++ f32_4 ++ f32_7 ++ f32_8).
Proof.
  destruct (cat_reconstructs_output
              (ParallelMemcpy 32768 task_per_index_reversed) 4
              sample_R [sample_A; sample_B] 1 sample_mem
              sample_valid
              (reversed_revision_valid 32768 sample_R 1 grain_32768))
    as [st' [Hrun [_ Hout]]].
  exists st'. split; [exact Hrun|].
  rewrite Hout. vm_compute. reflexivity.
Defined.

(** ** The copies of one outer index *)

Lemma filter_all (A : Type) (f : A -> bool) (l : list A) :
  (forall x, In x l -> f x = true) -> filter f l = l.
Proof.
  induction l as [|x l IH]; intros H; [reflexivity|].
  simpl. rewrite (H x) by (left; reflexivity).
  f_equal. apply IH. intros y Hy. apply H. right. exact Hy.
Qed.

Lemma filter_none (A : Type) (f : A -> bool) (l : list A) :
  (forall x, In x l -> f x = false) -> filter f l = [].
Proof.
  induction l as [|x l IH]; intros H; [reflexivity|].
  simpl. rewrite (H x) by (left; reflexivity).
  apply IH. intros y Hy. apply H. right. exact Hy.
Qed.

Section GroupOfLog.

Variable sizeof_scalar : Z.
Variable result : Tensor.
Variable tensors : list Tensor.
Variable dim : nat.

Local Abbreviation log := (prescribed_log sizeof_scalar result tensors dim).
Local Abbreviation of_outer i := (fun e : copy_event => ev_outer e =? i).

Lemma filter_other_groups (i : Z) (indices : list Z) :
  ~ In i indices -> filter (of_outer i) (log indices) = [].
Proof.
  intros Hni. apply filter_none. intros e He.
  apply in_prescribed_log in He. destruct He as [x [j [t [Hx [_ ->]]]]].
  simpl. apply Z.eqb_neq. intros ->. contradiction.
Qed.

Lemma filter_own_group (i : Z) (indices : list Z) :
  NoDup indices -> In i indices ->
  filter (of_outer i) (log indices)
  = group_log sizeof_scalar result tensors dim i.
Proof.
  induction 1 as [|x l Hx Hl IH]; intros Hin; [destruct Hin|].
  unfold prescribed_log. simpl flat_map. rewrite filter_app.
  fold (log l). destruct (Z.eq_dec x i) as [->|Hne].
  - rewrite filter_other_groups by exact Hx. rewrite app_nil_r.
    apply filter_all. intros e He. simpl.
    rewrite (group_log_outer _ _ _ _ _ _ He). apply Z.eqb_refl.
  - rewrite IH by (destruct Hin; [contradiction|assumption]).
    rewrite (filter_none _ (of_outer i)); [reflexivity|].
    intros e He. simpl. rewrite (group_log_outer _ _ _ _ _ _ He).
    apply Z.eqb_neq. exact Hne.
Qed.

End GroupOfLog.

(** C2.  The copies the kernel issues for an outer index [i] are, in order,
    those of the cursor walk: the cursor starts at
    [output_base + i * output_group_stride]; for each input [j] in list
    order, [inner_size[j] = extent * stride] elements are read at
    [input_base[j] + i * inner_size[j]], copied to the cursor, and the
    cursor advances by [inner_size[j]].  The returned store is the initial
    store with these copies applied. *)
Theorem copy_loop_follows_cursor_walk
        (v : revision) (sizeof_scalar : Z) (result : Tensor)
        (tensors : list Tensor) (dim : nat) (m : mem) :
  valid_cat sizeof_scalar result tensors dim ->
  valid_revision v result dim ->
  exists st' : state,
    cat_contig_kernel v sizeof_scalar result tensors dim (mkState m []) = (st', Done tt)
    /\ mem_eq (st_mem st') (apply_log (st_log st') m)
    /\ forall i : Z,
        0 <= i < outer_count result dim ->
        filter (fun e => ev_outer e =? i) (st_log st')
        = group_walk sizeof_scalar dim i tensors 0%nat
            (data_ptr result
             + i * output_group_stride result dim * sizeof_scalar).
Proof.
  intros Hv Hr.
  destruct (kernel_runs _ _ _ _ Hv v (mkState m []) Hr)
    as [st' [indices [Hrun [Hperm [Hmem Hlog]]]]].
  simpl in Hmem, Hlog. exists st'. split; [exact Hrun|]. split.
  - rewrite Hlog. exact Hmem.
  - intros i Hi. rewrite Hlog.
    apply (filter_own_group sizeof_scalar result tensors dim i indices).
    + apply (indices_NoDup result dim indices Hperm).
    + apply (indices_in_range result dim indices Hperm). exact Hi.
Qed.

Lemma copy_loop_follows_cursor_walk_witness :
  exists st' : state,
    cat_contig_kernel (SerialVec 8) 4 sample_R [sample_A; sample_B] 1
               (mkState sample_mem []) = (st', Done tt)
    /\ filter (fun e => ev_outer e =? 1) (st_log st')
       = [mkEvent 1 0 3016 1008 8; mkEvent 1 1 3024 2008 8].
Proof.
  destruct (copy_loop_follows_cursor_walk
              (SerialVec 8) 4 sample_R [sample_A; sample_B] 1 sample_mem
              sample_valid
              (serial_revision_valid 8 sample_R 1 ltac:(lia)
                 ltac:(cbv; discriminate)))
    as [st' [Hrun [_ Hwalk]]].
  exists st'. split; [exact Hrun|].
  rewrite (Hwalk 1) by (cbv; split; [discriminate|reflexivity]).
  reflexivity.
Defined.

(** ** Partition parameters *)

Lemma grain_bounds (GRAIN G : Z) :
  0 <= GRAIN -> 0 < G ->
  Z.quot GRAIN G * G <= GRAIN < (Z.quot GRAIN G + 1) * G.
Proof.
  intros HG Hpos. rewrite Z.quot_div_nonneg by lia.
  pose proof (Z.mul_div_le GRAIN G Hpos).
  pose proof (Z.mul_succ_div_gt GRAIN G Hpos). lia.
Qed.

(** C3.  Before any copy, the kernel computes the outer count as the
    output's element count divided by (extent along the axis x stride along
    the axis), and the parallel revision computes the grain size as the
    grain constant divided by the output group stride.  The kernel then is
    the loop over these constants: they are not recomputed inside it.  The
    division that gives the outer count is exact, and a task of
    grain-size outer indices copies at most the grain constant of elements,
    and less than one group short of it. *)
Theorem partition_parameters_computed_once
        (sizeof_scalar GRAIN_SIZE : Z) (result : Tensor)
        (tensors : list Tensor) (dim : nat) :
  valid_cat sizeof_scalar result tensors dim ->
  0 <= GRAIN_SIZE <= Int64.max_signed ->
  let outer := Z.quot (numel result) (extent result dim * stride_at result dim) in
  let output_stride := extent result dim * stride_at result dim in
  let grain := Z.quot GRAIN_SIZE output_stride in
  Parallel.partition_params GRAIN_SIZE result dim
  = Done (outer, output_stride, grain)
  /\ (forall (schedule : Z -> Z -> Z -> list (Z * Z)) (st : state),
         Parallel.cat_contig_kernel_impl sizeof_scalar GRAIN_SIZE schedule
                                         result tensors dim st
         = Parallel.parallel_for schedule 0 outer grain
             (Parallel.loop_nd sizeof_scalar result tensors dim output_stride)
             st)
  /\ (forall (Vec_size : Z) (st : state),
         Serial.cat_contig_kernel_impl sizeof_scalar Vec_size
                                       result tensors dim st
         = (snd (Serial.outer_loop sizeof_scalar Vec_size
                   (map (fun t => InputMeta.make (data_ptr t)
                                                 (inner_size t dim))
                        tensors)
                   (Z.to_nat (Z.min outer (INT_MAX + 1))) 0
                   (data_ptr result) st),
            if INT_MAX <? outer then Fault SignedOverflow else Done tt))
  /\ outer * output_stride = numel result
  /\ grain * output_stride <= GRAIN_SIZE < (grain + 1) * output_stride.
Proof.
  intros Hv Hg outer output_stride grain.
  pose proof (par_partition_params sizeof_scalar GRAIN_SIZE result tensors
                                   dim Hv Hg) as Hp.
  split; [exact Hp|]. split; [|split; [|split]].
  - intros schedule st.
    unfold Parallel.cat_contig_kernel_impl, bind_exec, lift.
    rewrite Hp. reflexivity.
  - intros Vec_size st. apply (serial_unfold _ _ _ _ _ Hv).
  - symmetry. apply (cat_numel _ _ _ _ Hv).
  - apply grain_bounds; [lia|]. apply (vc_nonempty Hv).
Qed.

Lemma partition_parameters_computed_once_witness :
  Parallel.partition_params 32768 sample_R 1 = Done (2, 4, 8192)
  /\ 2 * 4 = numel sample_R
  /\ 8192 * 4 <= 32768 < (8192 + 1) * 4.
Proof.
  destruct (partition_parameters_computed_once
              4 32768 sample_R [sample_A; sample_B] 1
              sample_valid grain_32768)
    as [Hp [_ [_ [Hexact Hgrain]]]].
  split; [exact Hp|]. split; [exact Hexact|exact Hgrain].
Defined.

(** ** Copy primitive dispatch *)

(** C4.  A run shorter than the lane count is copied by the scalar loop,
    any other run by the vector map; for a run whose source and
    destination do not overlap, the scalar loop, the vector map and
    [memcpy] leave the same byte at every address. *)
Theorem copy_paths_agree
        (sizeof_scalar Vec_size : Z) (m : mem)
        (result_ptr input_ptr local_inner : Z) :
  0 < sizeof_scalar -> 0 < Vec_size -> 0 <= local_inner ->
  regions_disjoint input_ptr (local_inner * sizeof_scalar)
                   result_ptr (local_inner * sizeof_scalar) ->
  (local_inner < Vec_size ->
   Serial.copy_run sizeof_scalar Vec_size result_ptr input_ptr local_inner m
   = Serial.scalar_copy sizeof_scalar result_ptr input_ptr local_inner m)
  /\ (Vec_size <= local_inner ->
      Serial.copy_run sizeof_scalar Vec_size result_ptr input_ptr local_inner m
      = Serial.vec256_map sizeof_scalar Vec_size (fun x => x)
                          result_ptr input_ptr local_inner m)
  /\ mem_eq (Serial.scalar_copy sizeof_scalar result_ptr input_ptr
                                local_inner m)
            (Serial.vec256_map sizeof_scalar Vec_size (fun x => x)
                               result_ptr input_ptr local_inner m)
  /\ mem_eq (Serial.scalar_copy sizeof_scalar result_ptr input_ptr
                                local_inner m)
            (memcpy m result_ptr input_ptr (local_inner * sizeof_scalar)).
Proof.
  intros Hsz HW Hn Hd.
  pose proof (scalar_copy_memcpy sizeof_scalar Hsz result_ptr input_ptr
                                 local_inner m Hn Hd) as Hscalar.
  pose proof (vec256_map_memcpy sizeof_scalar Vec_size Hsz HW
                                result_ptr input_ptr local_inner m Hn Hd)
    as Hvec.
  split; [|split; [|split]].
  - intros Hlt. unfold Serial.copy_run.
    destruct (Z.ltb_spec local_inner Vec_size); [reflexivity|lia].
  - intros Hge. unfold Serial.copy_run.
    destruct (Z.ltb_spec local_inner Vec_size); [lia|reflexivity].
  - eapply mem_eq_trans; [exact Hscalar|]. apply mem_eq_sym. exact Hvec.
  - exact Hscalar.
Qed.

Lemma copy_paths_agree_witness :
  Serial.copy_run 4 2 3000 1000 4 sample_mem
  = Serial.vec256_map 4 2 (fun x => x) 3000 1000 4 sample_mem
  /\ mem_eq (Serial.scalar_copy 4 3000 1000 4 sample_mem)
            (Serial.vec256_map 4 2 (fun x => x) 3000 1000 4 sample_mem).
Proof.
  destruct (copy_paths_agree 4 2 sample_mem 3000 1000 4
              ltac:(lia) ltac:(lia) ltac:(lia)
              ltac:(unfold regions_disjoint; lia))
    as [_ [Hvec [Hsame _]]].
  split; [apply Hvec; lia|exact Hsame].
Defined.

(** ** Degree of parallelism *)

(** C5.  For a valid input, any two instantiations of the kernel return,
    and return stores that hold the same byte at every address: the
    parallel revision under any scheduler whose sub-ranges partition the
    outer range (one task, one task per outer index, any order), and the
    sequential revision.  Moreover the copies the kernel issued give the
    same store in whatever order they take effect. *)
Theorem parallel_degree_invariance
        (v1 v2 : revision) (sizeof_scalar : Z) (result : Tensor)
        (tensors : list Tensor) (dim : nat) (m : mem) :
  valid_cat sizeof_scalar result tensors dim ->
  valid_revision v1 result dim ->
  valid_revision v2 result dim ->
  exists st1 st2 : state,
    cat_contig_kernel v1 sizeof_scalar result tensors dim (mkState m []) = (st1, Done tt)
    /\ cat_contig_kernel v2 sizeof_scalar result tensors dim (mkState m []) = (st2, Done tt)
    /\ mem_eq (st_mem st1) (st_mem st2)
    /\ (forall interleaving : list copy_event,
           Permutation (st_log st1) interleaving ->
           mem_eq (apply_log interleaving m) (st_mem st1)).
Proof.
  intros Hv Hr1 Hr2.
  destruct (kernel_runs _ _ _ _ Hv v1 (mkState m []) Hr1)
    as [st1 [idx1 [Hrun1 [Hperm1 [Hmem1 Hlog1]]]]].
  destruct (kernel_runs _ _ _ _ Hv v2 (mkState m []) Hr2)
    as [st2 [idx2 [Hrun2 [Hperm2 [Hmem2 _]]]]].
  simpl in Hmem1, Hmem2, Hlog1.
  pose proof (log_sources_intact _ _ _ _ Hv idx1 Hperm1) as Hs.
  pose proof (log_writes_once _ _ _ _ Hv idx1 Hperm1) as Hw.
  exists st1, st2. split; [exact Hrun1|]. split; [exact Hrun2|]. split.
  - eapply mem_eq_trans; [exact Hmem1|].
    eapply mem_eq_trans; [|apply mem_eq_sym; exact Hmem2].
    apply apply_log_permutation; [|exact Hs|exact Hw].
    unfold prescribed_log. apply Permutation_flat_map.
    eapply Permutation_trans; [exact Hperm1|].
    apply Permutation_sym. exact Hperm2.
  - intros interleaving Hp. rewrite Hlog1 in Hp.
    eapply mem_eq_trans; [|apply mem_eq_sym; exact Hmem1].
    apply mem_eq_sym. apply apply_log_permutation; assumption.
Qed.

Lemma parallel_degree_invariance_witness :
  exists st1 st2 : state,
    cat_contig_kernel (ParallelMemcpy 32768 task_per_index_reversed) 4
               sample_R [sample_A; sample_B] 1 (mkState sample_mem [])
    = (st1, Done tt)
    /\ cat_contig_kernel (SerialVec 8) 4
                  sample_R [sample_A; sample_B] 1 (mkState sample_mem [])
       = (st2, Done tt)
    /\ mem_eq (st_mem st1) (st_mem st2)
    /\ (forall interleaving : list copy_event,
           Permutation (st_log st1) interleaving ->
           mem_eq (apply_log interleaving sample_mem) (st_mem st1)).
Proof.
  apply (parallel_degree_invariance
           (ParallelMemcpy 32768 task_per_index_reversed) (SerialVec 8)
           4 sample_R [sample_A; sample_B] 1 sample_mem
           sample_valid
           (reversed_revision_valid 32768 sample_R 1 grain_32768)
           (serial_revision_valid 8 sample_R 1 ltac:(lia)
              ltac:(cbv; discriminate))).
Defined.

(** ** Disjointness and coverage *)

Lemma map_fst_combine_seq (A : Type) (l : list A) (s : nat) :
  map fst (combine (seq s (length l)) l) = seq s (length l).
Proof.
  revert s. induction l as [|x l IH]; intros s; [reflexivity|].
  simpl. f_equal. apply IH.
Qed.

Section Coverage.

Variable sizeof_scalar : Z.
Variable result : Tensor.
Variable tensors : list Tensor.
Variable dim : nat.
Hypothesis Hv : valid_cat sizeof_scalar result tensors dim.

Local Abbreviation G := (output_group_stride result dim).
Local Abbreviation N := (outer_count result dim).
Local Abbreviation log := (prescribed_log sizeof_scalar result tensors dim).
Local Abbreviation label := (fun e : copy_event => (ev_outer e, ev_input e)).

Lemma group_labels (i : Z) :
  map label (group_log sizeof_scalar result tensors dim i)
  = map (fun j => (i, j)) (seq 0 (length tensors)).
Proof.
  rewrite group_log_closed, map_map. simpl.
  rewrite <- (map_fst_combine_seq _ tensors 0) at 2.
  rewrite map_map. reflexivity.
Qed.

Lemma log_labels_NoDup (indices : list Z) :
  NoDup indices -> NoDup (map label (log indices)).
Proof.
  induction 1 as [|x l Hx Hl IH]; [constructor|].
  unfold prescribed_log. simpl flat_map. rewrite map_app.
  apply NoDup_app; [| exact IH |].
  - rewrite group_labels. apply NoDup_map_inj; [|apply seq_NoDup].
    intros a b H. congruence.
  - intros p Hp Hq. apply in_map_iff in Hp. destruct Hp as [e [<- He]].
    apply in_map_iff in Hq. destruct Hq as [e' [Heq He']].
    apply group_log_outer in He.
    apply in_prescribed_log in He'.
    destruct He' as [i [j [t [Hi [_ ->]]]]]. simpl in Heq.
    inversion Heq; subst. congruence.
Qed.

(** Every offset inside a group falls in the run of some input. *)
Lemma find_run_below (r : Z) (k : nat) :
  0 <= r < run_offset tensors dim k * sizeof_scalar ->
  exists (j : nat) (t : Tensor),
    nth_error tensors j = Some t
    /\ run_offset tensors dim j * sizeof_scalar <= r
    /\ r < (run_offset tensors dim j + inner_size t dim) * sizeof_scalar.
Proof.
  induction k as [|k IH]; intros Hr.
  - unfold run_offset in Hr. simpl in Hr. change (sumZ []) with 0 in Hr. lia.
  - destruct (Z_lt_ge_dec r (run_offset tensors dim k * sizeof_scalar))
      as [Hlt|Hge]; [apply IH; lia|].
    destruct (nth_error tensors k) as [t|] eqn:E.
    + exists k, t. rewrite (run_offset_S _ _ _ _ E) in Hr.
      split; [exact E|]. lia.
    + apply nth_error_None in E.
      rewrite (run_offset_all _ _ _ _ Hv (S k)) in Hr by lia.
      rewrite (run_offset_all _ _ _ _ Hv k) in Hge by lia. lia.
Qed.

Variable indices : list Z.
Hypothesis Hperm : Permutation indices (rangeZ 0 N).

(** Every byte of the output buffer is written by some copy. *)
Lemma every_byte_written (a : Z) :
  data_ptr result <= a < data_ptr result + numel result * sizeof_scalar ->
  exists e, In e (log indices) /\ covers e a = true.
Proof.
  intros Ha. pose proof (vc_sizeof Hv) as Hsz.
  pose proof (vc_nonempty Hv) as HG.
  rewrite (cat_numel _ _ _ _ Hv) in Ha.
  set (c := G * sizeof_scalar) in *.
  assert (Hc : 0 < c) by (unfold c; nia).
  set (x := a - data_ptr result).
  pose proof (Z.div_mod x c ltac:(lia)) as Hdm.
  pose proof (Z.mod_pos_bound x c Hc) as Hmod.
  assert (Hi : 0 <= x / c < N).
  { split; [apply Z.div_pos; unfold x; lia|].
    apply Z.div_lt_upper_bound; [lia|]. unfold x, c. nia. }
  destruct (find_run_below (x mod c) (length tensors)) as [j [t [Hnth [H1 H2]]]].
  { rewrite (run_offset_all _ _ _ _ Hv (length tensors)) by lia. fold c. lia. }
  exists (run_event sizeof_scalar result tensors dim (x / c) j t). split.
  - apply in_prescribed_log. exists (x / c), j, t.
    split; [|auto].
    apply (indices_in_range result dim indices Hperm). exact Hi.
  - apply in_range_true. simpl. unfold x, c in *. nia.
Qed.

Lemma writes_inside_output (e : copy_event) (a : Z) :
  In e (log indices) -> covers e a = true ->
  data_ptr result <= a < data_ptr result + numel result * sizeof_scalar.
Proof.
  intros He Hc. apply in_prescribed_log in He.
  destruct He as [i [j [t [Hi [Hnth ->]]]]].
  apply (indices_in_range result dim indices Hperm) in Hi.
  destruct (event_regions _ _ _ _ Hv i j t Hi Hnth) as [Hcv _].
  specialize (Hcv a Hc). lia.
Qed.

End Coverage.

(** C6.  The run on a valid input issues one copy for every (outer index,
    input position) pair, and the store it returns is the initial store with
    these copies carried out.  No byte is written by the copies of two
    different pairs.  Every byte of the output buffer is written by the copy
    of exactly one pair, and holds in the returned store the byte that this
    copy read from the initial store.  Copies write inside the output buffer
    only, and copies of different outer indices write no common byte. *)
Theorem writes_disjoint_and_covering
        (v : revision) (sizeof_scalar : Z) (result : Tensor)
        (tensors : list Tensor) (dim : nat) (m : mem) :
  valid_cat sizeof_scalar result tensors dim ->
  valid_revision v result dim ->
  exists st' : state,
    cat_contig_kernel v sizeof_scalar result tensors dim (mkState m []) = (st', Done tt)
    /\ mem_eq (st_mem st') (apply_log (st_log st') m)
    /\ NoDup (map (fun e => (ev_outer e, ev_input e)) (st_log st'))
    /\ (forall (e e' : copy_event) (a : Z),
           In e (st_log st') -> In e' (st_log st') ->
           covers e a = true -> covers e' a = true ->
           (ev_outer e, ev_input e) = (ev_outer e', ev_input e'))
    /\ (forall a : Z,
           data_ptr result <= a
           < data_ptr result + numel result * sizeof_scalar ->
           exists e,
             In e (st_log st') /\ covers e a = true
             /\ (forall e', In e' (st_log st') -> covers e' a = true ->
                            e' = e)
             /\ st_mem st' a = m (ev_src e + (a - ev_dst e)))
    /\ (forall (e : copy_event) (a : Z),
           In e (st_log st') -> covers e a = true ->
           data_ptr result <= a
           < data_ptr result + numel result * sizeof_scalar)
    /\ (forall (e e' : copy_event) (a : Z),
           In e (st_log st') -> In e' (st_log st') ->
           ev_outer e <> ev_outer e' ->
           covers e a = true -> covers e' a = false)
    /\ (forall a : Z,
           ~ (data_ptr result <= a
              < data_ptr result + numel result * sizeof_scalar) ->
           st_mem st' a = m a).
Proof.
  intros Hv Hr.
  destruct (kernel_runs _ _ _ _ Hv v (mkState m []) Hr)
    as [st' [indices [Hrun [Hperm [Hmem Hlog]]]]].
  simpl in Hmem, Hlog. exists st'. rewrite Hlog.
  pose proof (log_writes_once _ _ _ _ Hv indices Hperm) as Hw.
  pose proof (log_sources_intact _ _ _ _ Hv indices Hperm) as Hs.
  split; [exact Hrun|]. split; [exact Hmem|].
  split; [|split; [|split; [|split; [|split]]]].
  - apply log_labels_NoDup.
    apply (indices_NoDup result dim indices Hperm).
  - intros e e' a He He' Hc Hc'.
    rewrite (Hw e e' a He He' Hc Hc'). reflexivity.
  - intros a Ha.
    destruct (every_byte_written _ _ _ _ Hv indices Hperm a Ha)
      as [e [He Hc]].
    exists e. split; [exact He|]. split; [exact Hc|]. split.
    + intros e' He' Hc'. apply (Hw e' e a He' He Hc' Hc).
    + rewrite (Hmem a). apply apply_log_covered; assumption.
  - intros e a He Hc.
    apply (writes_inside_output _ _ _ _ Hv indices Hperm e a He Hc).
  - intros e e' a He He' Hne Hc.
    destruct (covers e' a) eqn:Hc'; [|reflexivity].
    exfalso. apply Hne. rewrite (Hw e e' a He He' Hc Hc'). reflexivity.
  - intros a Ha. rewrite (Hmem a). apply apply_log_untouched.
    intros e He. destruct (covers e a) eqn:Hc; [|reflexivity].
    exfalso. apply Ha.
    apply (writes_inside_output _ _ _ _ Hv indices Hperm e a He Hc).
Qed.

Lemma writes_disjoint_and_covering_witness :
  exists st' : state,
    cat_contig_kernel (ParallelMemcpy 32768 grain_chunks) 4
               sample_R [sample_A; sample_B] 1 (mkState sample_mem [])
    = (st', Done tt)
    /\ exists e,
         In e (st_log st') /\ covers e 3019 = true
         /\ st_mem st' 3019 = sample_mem (ev_src e + (3019 - ev_dst e)).
Proof.
  destruct (writes_disjoint_and_covering
              (ParallelMemcpy 32768 grain_chunks) 4
              sample_R [sample_A; sample_B] 1 sample_mem
              sample_valid
              (grain_revision_valid 32768 sample_R 1 grain_32768))
    as [st' [Hrun [_ [_ [_ [Hcover _]]]]]].
  exists st'. split; [exact Hrun|].
  destruct (Hcover 3019 ltac:(cbv; split; [discriminate|reflexivity]))
    as [e [He [Hc [_ Hbyte]]]].
  exists e. split; [exact He|]. split; [exact Hc|exact Hbyte].
Defined.

(** ** Order of the inputs inside a group *)

(** C7, as amended.  Inside an outer group, the contribution of the input at
    position [j >= 1] starts exactly where the contribution of the input at
    position [j - 1] ends: at a later output offset when the input at
    position [j - 1] contributes at least one element, at the same offset
    when it contributes none. *)
Theorem consecutive_inputs_are_adjacent
        (v : revision) (sizeof_scalar : Z) (result : Tensor)
        (tensors : list Tensor) (dim : nat) (m : mem) :
  valid_cat sizeof_scalar result tensors dim ->
  valid_revision v result dim ->
  exists st' : state,
    cat_contig_kernel v sizeof_scalar result tensors dim (mkState m []) = (st', Done tt)
    /\ forall e e' : copy_event,
        In e (st_log st') -> In e' (st_log st') ->
        ev_outer e = ev_outer e' -> ev_input e' = S (ev_input e) ->
        ev_dst e' = ev_dst e + ev_len e
        /\ 0 <= ev_len e
        /\ (0 < ev_len e -> ev_dst e < ev_dst e').
Proof.
  intros Hv Hr.
  destruct (kernel_runs _ _ _ _ Hv v (mkState m []) Hr)
    as [st' [indices [Hrun [Hperm [_ Hlog]]]]].
  simpl in Hlog. exists st'. rewrite Hlog. split; [exact Hrun|].
  intros e e' He He' Ho Hj.
  apply in_prescribed_log in He. destruct He as [i [j [t [Hi [Hnth ->]]]]].
  apply in_prescribed_log in He'.
  destruct He' as [i' [j' [t' [Hi' [Hnth' ->]]]]].
  simpl in Ho, Hj. subst i' j'. simpl.
  rewrite (run_offset_S _ _ _ _ Hnth).
  destruct (run_inside _ _ _ _ Hv _ _ Hnth) as [_ [Hnn _]].
  pose proof (vc_sizeof Hv) as Hsz.
  split; [ring|]. split; [nia|]. intros Hpos. nia.
Qed.

Lemma consecutive_inputs_are_adjacent_witness :
  exists st' : state,
    cat_contig_kernel (SerialVec 8) 4 sample_R [sample_A; sample_B] 1
                      (mkState sample_mem []) = (st', Done tt)
    /\ In (mkEvent 1 0 3016 1008 8) (st_log st')
    /\ In (mkEvent 1 1 3024 2008 8) (st_log st')
    /\ 3024 = 3016 + 8 /\ 0 <= 8 /\ (0 < 8 -> 3016 < 3024).
Proof.
  destruct (consecutive_inputs_are_adjacent
              (SerialVec 8) 4 sample_R [sample_A; sample_B] 1 sample_mem
              sample_valid
              (serial_revision_valid 8 sample_R 1 ltac:(lia)
                 ltac:(cbv; discriminate)))
    as [st' [Hrun Hadj]].
  assert (Hlog : st_log st'
                 = [mkEvent 0 0 3000 1000 8; mkEvent 0 1 3008 2000 8;
                    mkEvent 1 0 3016 1008 8; mkEvent 1 1 3024 2008 8]).
  { apply (f_equal (fun r => st_log (fst r))) in Hrun. simpl in Hrun.
    rewrite <- Hrun. vm_compute. reflexivity. }
  assert (He : In (mkEvent 1 0 3016 1008 8) (st_log st'))
    by (rewrite Hlog; simpl; auto).
  assert (He' : In (mkEvent 1 1 3024 2008 8) (st_log st'))
    by (rewrite Hlog; simpl; auto).
  exists st'. split; [exact Hrun|]. split; [exact He|]. split; [exact He'|].
  apply (Hadj _ _ He He' eq_refl eq_refl).
Defined.

(** C7, as stated, fails: an input with no element along the axis is
    followed by an input whose contribution starts at the very same output
    offset. *)
Lemma strictly_later_offset_counterexample :
  valid_cat 4 hollow_R [hollow_A; hollow_B] 1
  /\ valid_revision (ParallelMemcpy 32768 single_task) hollow_R 1
  /\ exists (st' : state) (e e' : copy_event),
      cat_contig_kernel (ParallelMemcpy 32768 single_task) 4
                 hollow_R [hollow_A; hollow_B] 1 (mkState zero_mem [])
      = (st', Done tt)
      /\ In e (st_log st') /\ In e' (st_log st')
      /\ ev_outer e = ev_outer e'
      /\ ev_input e = 0%nat /\ ev_input e' = 1%nat
      /\ ev_dst e = 3000 /\ ev_dst e' = 3000
      /\ ~ ev_dst e < ev_dst e'.
Proof.
  split; [exact hollow_valid|].
  split; [exact (single_revision_valid 32768 hollow_R 1 grain_32768)|].
  eexists. exists (mkEvent 0 0 3000 1000 0), (mkEvent 0 1 3000 2000 8).
  split; [reflexivity|]. simpl.
  repeat split; auto. lia.
Qed.

(** ** Bit exactness *)

(** C8.  Whatever the element size and whatever bytes the inputs hold, the
    element at position [k] of the run that input [j] contributes to outer
    group [i] has, in the output, the very bytes it has in the input: no
    byte is computed, only moved. *)
Theorem elements_copied_bit_exactly
        (v : revision) (sizeof_scalar : Z) (result : Tensor)
        (tensors : list Tensor) (dim : nat) (m : mem) :
  valid_cat sizeof_scalar result tensors dim ->
  valid_revision v result dim ->
  exists st' : state,
    cat_contig_kernel v sizeof_scalar result tensors dim (mkState m []) = (st', Done tt)
    /\ forall (i : Z) (j : nat) (t : Tensor) (k : Z),
        0 <= i < outer_count result dim ->
        nth_error tensors j = Some t ->
        0 <= k < inner_size t dim ->
        load_bytes (st_mem st')
          (data_ptr result
           + (i * output_group_stride result dim
              + run_offset tensors dim j + k) * sizeof_scalar)
          sizeof_scalar
        = load_bytes m
            (data_ptr t + (i * inner_size t dim + k) * sizeof_scalar)
            sizeof_scalar.
Proof.
  intros Hv Hr.
  destruct (kernel_runs _ _ _ _ Hv v (mkState m []) Hr)
    as [st' [indices [Hrun [Hperm [Hmem _]]]]].
  simpl in Hmem. exists st'. split; [exact Hrun|].
  intros i j t k Hi Hnth Hk. pose proof (vc_sizeof Hv) as Hsz.
  apply load_bytes_ext. intros b Hb. rewrite Hmem.
  replace (data_ptr result
           + (i * output_group_stride result dim
              + run_offset tensors dim j + k) * sizeof_scalar + b)
    with (data_ptr result
          + (i * output_group_stride result dim
             + run_offset tensors dim j) * sizeof_scalar
          + (k * sizeof_scalar + b)) by ring.
  rewrite (log_copies _ _ _ _ Hv indices Hperm m i j t) by (auto; nia).
  f_equal. ring.
Qed.

Lemma elements_copied_bit_exactly_witness :
  exists st' : state,
    cat_contig_kernel (SerialVec 8) 4 special_R [special_A; special_B] 1
               (mkState special_mem []) = (st', Done tt)
    /\ load_bytes (st_mem st') 3000 4 = f32_nan
    /\ load_bytes (st_mem st') 3004 4 = f32_pos_inf
    /\ load_bytes (st_mem st') 3008 4 = f32_neg_inf
    /\ load_bytes (st_mem st') 3012 4 = f32_neg_zero.
Proof.
  destruct (elements_copied_bit_exactly
              (SerialVec 8) 4 special_R [special_A; special_B] 1 special_mem
              special_valid
              (serial_revision_valid 8 special_R 1 ltac:(lia)
                 ltac:(cbv; discriminate)))
    as [st' [Hrun Hel]].
  exists st'. split; [exact Hrun|].
  assert (Hi : 0 <= 0 < outer_count special_R 1)
    by (cbv; split; [discriminate|reflexivity]).
  pose proof (Hel 0 0%nat special_A 0 Hi eq_refl
                  ltac:(cbv; split; [discriminate|reflexivity])) as H0.
  pose proof (Hel 0 0%nat special_A 1 Hi eq_refl
                  ltac:(cbv; split; [discriminate|reflexivity])) as H1.
  pose proof (Hel 0 1%nat special_B 0 Hi eq_refl
                  ltac:(cbv; split; [discriminate|reflexivity])) as H2.
  pose proof (Hel 0 1%nat special_B 1 Hi eq_refl
                  ltac:(cbv; split; [discriminate|reflexivity])) as H3.
  repeat split; [exact H0|exact H1|exact H2|exact H3].
Defined.

(** ** Empty input list *)

Lemma par_loop_from_no_input (sizeof_scalar : Z) (result : Tensor) (dim : nat)
      (output_stride : Z) (n : nat) :
  forall (i : Z) (st : state),
    Parallel.loop_from
      (Parallel.loop_body sizeof_scalar result [] dim output_stride) n i st
    = (st, Done tt).
Proof.
  induction n as [|n IH]; intros i st; [reflexivity|].
  simpl. unfold bind_exec. simpl. apply IH.
Qed.

Lemma par_chunks_no_input (sizeof_scalar : Z) (result : Tensor) (dim : nat)
      (output_stride : Z) (chunks : list (Z * Z)) :
  forall (acc : exec unit) (st : state),
    acc st = (st, Done tt) ->
    fold_left
      (fun acc (r : Z * Z) =>
         _ <~ acc ;;
         Parallel.loop_nd sizeof_scalar result [] dim output_stride
                          (fst r) (snd r))
      chunks acc st
    = (st, Done tt).
Proof.
  induction chunks as [|r chunks IH]; intros acc st Hacc; [exact Hacc|].
  simpl. apply IH. unfold bind_exec. rewrite Hacc.
  unfold Parallel.loop_nd. apply par_loop_from_no_input.
Qed.

Lemma serial_outer_loop_no_input (sizeof_scalar Vec_size : Z) (n : nat) :
  forall (i result_ptr : Z) (st : state),
    Serial.outer_loop sizeof_scalar Vec_size [] n i result_ptr st
    = (result_ptr, st).
Proof.
  induction n as [|n IH]; intros i result_ptr st; [reflexivity|].
  simpl. apply IH.
Qed.

(** With no input, the kernel is its prologue: the state is left as it
    was. *)
Lemma run_no_input (v : revision) (sizeof_scalar : Z) (result : Tensor)
      (dim : nat) (st : state) :
  cat_contig_kernel v sizeof_scalar result [] dim st
  = (st,
     rsz <- size result dim ;;
     rsd <- stride result dim ;;
     outer <- div64 (numel result) (Int64.mul rsz rsd) ;;
     match v with
     | ParallelMemcpy G _ =>
         _ <- div64 G (Int64.mul rsd rsz) ;; Done tt
     | SerialVec _ =>
         if INT_MAX <? outer then Fault SignedOverflow else Done tt
     end).
Proof.
  destruct v as [G sched|W]; simpl.
  - unfold Parallel.cat_contig_kernel_impl, Parallel.partition_params,
      bind_exec, lift.
    destruct (size result dim) as [rsz|]; [|reflexivity].
    destruct (stride result dim) as [rsd|]; [|reflexivity]. simpl.
    destruct (div64 (numel result) (Int64.mul rsz rsd)) as [outer|];
      [|reflexivity]. simpl.
    destruct (div64 G (Int64.mul rsd rsz)) as [grain|]; [|reflexivity].
    simpl. unfold Parallel.parallel_for.
    apply par_chunks_no_input. reflexivity.
  - unfold Serial.cat_contig_kernel_impl, bind_exec, lift.
    destruct (size result dim) as [rsz|]; [|reflexivity].
    destruct (stride result dim) as [rsd|]; [|reflexivity]. simpl.
    destruct (div64 (numel result) (Int64.mul rsz rsd)) as [outer|];
      [|reflexivity]. simpl.
    rewrite serial_outer_loop_no_input. reflexivity.
Qed.

Lemma mul64_comm (a b : Z) : Int64.mul a b = Int64.mul b a.
Proof. unfold Int64.mul. rewrite Z.mul_comm. reflexivity. Qed.

(** C9.  Invoked with an empty input list, the kernel issues no copy:
    however it ends, the state it leaves behind is the state it was given
    (every byte as it was, the log unchanged).  It completes whenever the
    concatenation axis is in range, extent times stride of the output is
    not zero and the loop counter can reach the outer count. *)
Theorem empty_input_list_is_noop
        (v : revision) (sizeof_scalar : Z) (result : Tensor) (dim : nat)
        (st : state) :
  fst (cat_contig_kernel v sizeof_scalar result [] dim st) = st
  /\ forall rsz rsd : Z,
      size result dim = Done rsz ->
      stride result dim = Done rsd ->
      Int64.mul rsz rsd <> 0 ->
      counter_reaches v (Int64.wrap (Z.quot (numel result) (Int64.mul rsz rsd))) ->
      cat_contig_kernel v sizeof_scalar result [] dim st = (st, Done tt).
Proof.
  rewrite run_no_input. split; [reflexivity|].
  intros rsz rsd Hs Hd Hnz Hc. rewrite Hs, Hd. simpl.
  unfold div64. rewrite (mul64_comm rsd rsz).
  destruct (Z.eqb_spec (Int64.mul rsz rsd) 0) as [E|_]; [contradiction|].
  simpl. destruct v as [G sched|W]; [reflexivity|].
  simpl in Hc.
  destruct (Z.ltb_spec INT_MAX
              (Int64.wrap (Z.quot (numel result) (Int64.mul rsz rsd))));
    [lia|reflexivity].
Qed.

Lemma empty_input_list_is_noop_witness :
  cat_contig_kernel (SerialVec 8) 4 sample_R [] 1 (mkState sample_mem [])
  = (mkState sample_mem [], Done tt)
  /\ cat_contig_kernel (ParallelMemcpy 32768 grain_chunks) 4 sample_R [] 1
                       (mkState sample_mem [])
     = (mkState sample_mem [], Done tt)
  /\ fst (cat_contig_kernel (SerialVec 8) 4 empty_R [] 1
                            (mkState sample_mem []))
     = mkState sample_mem [].
Proof.
  split; [|split].
  - apply (proj2 (empty_input_list_is_noop (SerialVec 8) 4 sample_R 1
                    (mkState sample_mem [])) 4 1 eq_refl eq_refl).
    + cbv. discriminate.
    + cbv. discriminate.
  - apply (proj2 (empty_input_list_is_noop
                    (ParallelMemcpy 32768 grain_chunks) 4 sample_R 1
                    (mkState sample_mem [])) 4 1 eq_refl eq_refl).
    + cbv. discriminate.
    + exact I.
  - apply (proj1 (empty_input_list_is_noop (SerialVec 8) 4 empty_R 1
                    (mkState sample_mem []))).
Defined.

(** ** Division by zero *)

Lemma par_copy_tensors_fault (sizeof_scalar : Z) (dim : nat) (i : Z)
      (ts : list Tensor) :
  forall (j : nat) (p : Z) (st : state) (e : error),
    snd (Parallel.copy_tensors sizeof_scalar dim i ts j p st) = Fault e ->
    e = IndexError.
Proof.
  induction ts as [|t ts IH]; intros j p st e H; [discriminate|].
  simpl in H. unfold bind_exec, lift, size, stride in H.
  destruct (nth_error (sizes t) dim); [|simpl in H; congruence].
  destruct (nth_error (strides t) dim); [|simpl in H; congruence].
  simpl in H. apply IH in H. exact H.
Qed.

Lemma par_loop_from_fault (body : Z -> exec unit) (n : nat) :
  (forall i st e, snd (body i st) = Fault e -> e = IndexError) ->
  forall (i : Z) (st : state) (e : error),
    snd (Parallel.loop_from body n i st) = Fault e -> e = IndexError.
Proof.
  intros Hb. induction n as [|n IH]; intros i st e H; [discriminate|].
  simpl in H. unfold bind_exec in H.
  destruct (body i st) as [st' [[]|e']] eqn:E.
  - apply IH in H. exact H.
  - simpl in H. inversion H; subst. apply (Hb i st). rewrite E. reflexivity.
Qed.

Lemma par_chunks_fault (f : Z -> Z -> exec unit) (chunks : list (Z * Z)) :
  (forall s e st x, snd (f s e st) = Fault x -> x = IndexError) ->
  forall acc : exec unit,
    (forall st y, snd (acc st) = Fault y -> y = IndexError) ->
    forall (st : state) (x : error),
      snd (fold_left (fun acc (r : Z * Z) => _ <~ acc ;; f (fst r) (snd r))
                     chunks acc st) = Fault x ->
      x = IndexError.
Proof.
  intros Hf. induction chunks as [|r chunks IH]; intros acc Hacc st x H.
  - simpl in H. apply (Hacc st). exact H.
  - simpl in H. apply IH in H; [exact H|].
    intros st0 y Hy. unfold bind_exec in Hy.
    destruct (acc st0) as [st' [[]|z]] eqn:E.
    + apply Hf in Hy. exact Hy.
    + simpl in Hy. inversion Hy; subst. apply (Hacc st0). rewrite E.
      reflexivity.
Qed.

Lemma serial_collect_fault (dim : nat) (ts : list Tensor) (e : error) :
  Serial.collect_inputs dim ts = Fault e -> e = IndexError.
Proof.
  induction ts as [|t ts IH]; intros H; [discriminate|].
  simpl in H. unfold Serial.InputMeta_ctor, size, stride in H.
  destruct (nth_error (strides t) dim); [|simpl in H; congruence].
  destruct (nth_error (sizes t) dim); [|simpl in H; congruence].
  simpl in H. destruct (Serial.collect_inputs dim ts); simpl in H.
  - discriminate.
  - inversion H; subst. apply IH. reflexivity.
Qed.

(** C10.  Both revisions divide the output's element count by (extent x
    stride along the axis) without a guard, and the parallel revision
    divides the grain constant by the same product.  With the axis in
    range, the kernel stops on a division by zero exactly when that product
    (as an [int64_t]) is zero; it does so, before any write, in particular
    for an output with no element along the axis; and it completes only if
    the product is not zero. *)
Theorem unguarded_division_by_group_stride
        (v : revision) (sizeof_scalar : Z) (result : Tensor)
        (tensors : list Tensor) (dim : nat) (st : state) (rsz rsd : Z) :
  size result dim = Done rsz ->
  stride result dim = Done rsd ->
  (snd (cat_contig_kernel v sizeof_scalar result tensors dim st)
   = Fault DivideByZero
   <-> Int64.mul rsz rsd = 0)
  /\ (rsz = 0 ->
      cat_contig_kernel v sizeof_scalar result tensors dim st
      = (st, Fault DivideByZero))
  /\ (snd (cat_contig_kernel v sizeof_scalar result tensors dim st) = Done tt ->
      rsz * rsd <> 0)
  /\ (forall GRAIN_SIZE : Z,
         Parallel.partition_params GRAIN_SIZE result dim
         = (outer <- div64 (numel result) (Int64.mul rsz rsd) ;;
            grain <- div64 GRAIN_SIZE (Int64.mul rsd rsz) ;;
            Done (outer, Int64.mul rsd rsz, grain))).
Proof.
  intros Hs Hd.
  assert (Hzero : Int64.mul rsz rsd = 0 ->
                  cat_contig_kernel v sizeof_scalar result tensors dim st
                  = (st, Fault DivideByZero)).
  { intros Hz. destruct v as [G sched|W]; simpl.
    - unfold Parallel.cat_contig_kernel_impl, Parallel.partition_params,
        bind_exec, lift.
      rewrite Hs, Hd. simpl. unfold div64 at 1. rewrite Hz. reflexivity.
    - unfold Serial.cat_contig_kernel_impl, bind_exec, lift.
      rewrite Hs, Hd. unfold div64 at 1. rewrite Hz. reflexivity. }
  assert (Hnonzero : Int64.mul rsz rsd <> 0 ->
                     snd (cat_contig_kernel v sizeof_scalar result tensors
                                            dim st)
                     <> Fault DivideByZero).
  { intros Hnz Hrun. destruct v as [G sched|W]; simpl in Hrun.
    - unfold Parallel.cat_contig_kernel_impl, Parallel.partition_params,
        bind_exec, lift in Hrun.
      rewrite Hs, Hd in Hrun. simpl in Hrun. unfold div64 in Hrun.
      rewrite (mul64_comm rsd rsz) in Hrun.
      destruct (Z.eqb_spec (Int64.mul rsz rsd) 0) as [E|_]; [contradiction|].
      simpl in Hrun. unfold Parallel.parallel_for in Hrun.
      apply par_chunks_fault in Hrun; [discriminate| |discriminate].
      intros s e st0 x Hx. unfold Parallel.loop_nd in Hx.
      apply par_loop_from_fault in Hx; [exact Hx|].
      intros i st1 y Hy. unfold Parallel.loop_body in Hy.
      apply par_copy_tensors_fault in Hy. exact Hy.
    - unfold Serial.cat_contig_kernel_impl, bind_exec, lift in Hrun.
      rewrite Hs, Hd in Hrun. unfold div64 in Hrun.
      destruct (Z.eqb_spec (Int64.mul rsz rsd) 0) as [E|_]; [contradiction|].
      destruct (Serial.collect_inputs dim tensors) as [inputs|x] eqn:E.
      + simpl in Hrun.
        destruct (INT_MAX <? _) in Hrun; discriminate.
      + simpl in Hrun. apply serial_collect_fault in E. congruence. }
  split; [|split; [|split]].
  - split.
    + intros Hrun. destruct (Z.eq_dec (Int64.mul rsz rsd) 0) as [E|E];
        [exact E|]. exfalso. apply (Hnonzero E). exact Hrun.
    + intros Hz. rewrite (Hzero Hz). reflexivity.
  - intros ->. apply Hzero. reflexivity.
  - intros Hrun Hprod.
    assert (Hz : Int64.mul rsz rsd = 0)
      by (unfold Int64.mul; rewrite Hprod; reflexivity).
    rewrite (Hzero Hz) in Hrun. discriminate.
  - intros GRAIN_SIZE. unfold Parallel.partition_params.
    rewrite Hs, Hd. reflexivity.
Qed.

Lemma unguarded_division_by_group_stride_witness :
  cat_contig_kernel (ParallelMemcpy 32768 grain_chunks) 4 empty_R [] 1
                    (mkState zero_mem [])
  = (mkState zero_mem [], Fault DivideByZero)
  /\ cat_contig_kernel (SerialVec 8) 4 empty_R [] 1 (mkState zero_mem [])
     = (mkState zero_mem [], Fault DivideByZero).
Proof.
  split.
  - apply (unguarded_division_by_group_stride
             (ParallelMemcpy 32768 grain_chunks) 4 empty_R [] 1
             (mkState zero_mem []) 0 1 eq_refl eq_refl).
    reflexivity.
  - apply (unguarded_division_by_group_stride
             (SerialVec 8) 4 empty_R [] 1
             (mkState zero_mem []) 0 1 eq_refl eq_refl).
    reflexivity.
Defined.

(** ** What the kernel leaves alone *)

Section Frame.

Variable sizeof_scalar : Z.
Variable result : Tensor.
Variable tensors : list Tensor.
Variable dim : nat.
Hypothesis Hv : valid_cat sizeof_scalar result tensors dim.

Local Abbreviation N := (outer_count result dim).
Local Abbreviation log := (prescribed_log sizeof_scalar result tensors dim).

(** No byte of an input is a byte of the output. *)
Lemma input_outside_output (t : Tensor) (a : Z) :
  In t tensors -> in_buffer sizeof_scalar t a ->
  ~ in_buffer sizeof_scalar result a.
Proof.
  intros Hin Ha Hr. unfold in_buffer in *.
  pose proof (vc_no_overlap Hv) as Hd.
  rewrite Forall_forall in Hd. specialize (Hd t Hin).
  unfold regions_disjoint in Hd. lia.
Qed.

(** The inner run of an input lies in the input's buffer. *)
Lemma inner_run_inside (i : Z) (t : Tensor) (k : Z) :
  In t tensors -> 0 <= i < N ->
  0 <= k < inner_size t dim * sizeof_scalar ->
  in_buffer sizeof_scalar t
            (data_ptr t + i * inner_size t dim * sizeof_scalar + k).
Proof.
  intros Hin Hi Hk.
  destruct (In_nth_error _ _ Hin) as [j Hj].
  destruct (event_regions _ _ _ _ Hv i j t Hi Hj) as [_ Hreads].
  apply Hreads. unfold reads. apply in_range_true. simpl. lia.
Qed.

Lemma inner_run_ext (m1 m2 : mem) (i : Z) (t : Tensor) :
  In t tensors -> 0 <= i < N ->
  (forall a, in_buffer sizeof_scalar t a -> m1 a = m2 a) ->
  inner_run sizeof_scalar dim m1 i t = inner_run sizeof_scalar dim m2 i t.
Proof.
  intros Hin Hi H. unfold inner_run. apply load_bytes_ext.
  intros k Hk. apply H. apply inner_run_inside; assumption.
Qed.

Lemma group_run_ext (m1 m2 : mem) (i : Z) :
  0 <= i < N ->
  (forall t a, In t tensors -> in_buffer sizeof_scalar t a -> m1 a = m2 a) ->
  group_run sizeof_scalar tensors dim m1 i
  = group_run sizeof_scalar tensors dim m2 i.
Proof.
  intros Hi H. unfold group_run. f_equal. apply map_ext_in.
  intros t Hin. apply inner_run_ext; [exact Hin|exact Hi|].
  intros a Ha. apply (H t a Hin Ha).
Qed.

Lemma cat_bytes_ext (m1 m2 : mem) :
  (forall t a, In t tensors -> in_buffer sizeof_scalar t a -> m1 a = m2 a) ->
  cat_bytes sizeof_scalar result tensors dim m1
  = cat_bytes sizeof_scalar result tensors dim m2.
Proof.
  intros H. unfold cat_bytes. f_equal. apply map_ext_in.
  intros i Hi. apply in_rangeZ in Hi.
  apply group_run_ext; [lia|exact H].
Qed.

Variable indices : list Z.
Hypothesis Hperm : Permutation indices (rangeZ 0 N).

(** The copies change no byte outside the output buffer. *)
Lemma log_outside_output (m : mem) (a : Z) :
  ~ in_buffer sizeof_scalar result a ->
  apply_log (log indices) m a = m a.
Proof.
  intros Ha. apply apply_log_untouched. intros e He.
  destruct (covers e a) eqn:Hc; [|reflexivity].
  exfalso. apply Ha.
  apply (writes_inside_output _ _ _ _ Hv indices Hperm e a He Hc).
Qed.

Lemma log_keeps_inputs (m : mem) (t : Tensor) (a : Z) :
  In t tensors -> in_buffer sizeof_scalar t a ->
  apply_log (log indices) m a = m a.
Proof.
  intros Hin Ha. apply log_outside_output.
  apply (input_outside_output t a Hin Ha).
Qed.

(** Applying the copies to a store they have been applied to changes
    nothing: what they read has not been written. *)
Lemma log_applied_twice (indices' : list Z) (m : mem) :
  Permutation indices' (rangeZ 0 N) ->
  mem_eq (apply_log (log indices') (apply_log (log indices) m))
         (apply_log (log indices) m).
Proof.
  intros Hperm' a.
  destruct (covered_or_not (log indices') a) as [[e [He Hc]]|Hnone].
  - rewrite (apply_log_covered (log indices') _ e a
               (log_sources_intact _ _ _ _ Hv indices' Hperm')
               (log_writes_once _ _ _ _ Hv indices' Hperm') He Hc).
    assert (He' : In e (log indices)).
    { apply in_prescribed_log in He. apply in_prescribed_log.
      destruct He as [i [j [t [Hi H]]]]. exists i, j, t.
      split; [|exact H].
      apply (indices_in_range result dim indices Hperm).
      apply (indices_in_range result dim indices' Hperm'). exact Hi. }
    rewrite (apply_log_covered (log indices) m e a
               (log_sources_intact _ _ _ _ Hv indices Hperm)
               (log_writes_once _ _ _ _ Hv indices Hperm) He' Hc).
    apply in_prescribed_log in He'.
    destruct He' as [i [j [t [Hi [Hj ->]]]]].
    apply (indices_in_range result dim indices Hperm) in Hi.
    apply (log_keeps_inputs m t); [exact (nth_error_In _ _ Hj)|].
    destruct (event_regions _ _ _ _ Hv i j t Hi Hj) as [_ Hreads].
    apply Hreads. unfold reads, covers in *.
    apply in_range_true in Hc. apply in_range_true. lia.
  - apply apply_log_untouched. exact Hnone.
Qed.

End Frame.

(** X2.  On a valid input the kernel (either revision) changes no byte
    outside the output buffer; in particular every input buffer holds,
    after the call, the bytes it held before. *)
Theorem kernel_writes_only_output
        (v : revision) (sizeof_scalar : Z) (result : Tensor)
        (tensors : list Tensor) (dim : nat) (m : mem) :
  valid_cat sizeof_scalar result tensors dim ->
  valid_revision v result dim ->
  exists st' : state,
    cat_contig_kernel v sizeof_scalar result tensors dim (mkState m [])
    = (st', Done tt)
    /\ (forall a : Z,
           ~ in_buffer sizeof_scalar result a -> st_mem st' a = m a)
    /\ (forall t : Tensor,
           In t tensors ->
           load_bytes (st_mem st') (data_ptr t) (numel t * sizeof_scalar)
           = load_bytes m (data_ptr t) (numel t * sizeof_scalar)).
Proof.
  intros Hv Hr.
  destruct (kernel_runs _ _ _ _ Hv v (mkState m []) Hr)
    as [st' [indices [Hrun [Hperm [Hmem _]]]]].
  simpl in Hmem. exists st'. split; [exact Hrun|]. split.
  - intros a Ha. rewrite (Hmem a).
    apply (log_outside_output _ _ _ _ Hv indices Hperm m a Ha).
  - intros t Hin. apply load_bytes_ext. intros k Hk. rewrite (Hmem _).
    apply (log_keeps_inputs _ _ _ _ Hv indices Hperm m t); [exact Hin|].
    unfold in_buffer. lia.
Qed.

Lemma kernel_writes_only_output_witness :
  exists st' : state,
    cat_contig_kernel (SerialVec 2) 4 sample_R [sample_A; sample_B] 1
                      (mkState sample_mem [])
    = (st', Done tt)
    /\ st_mem st' 2999 = sample_mem 2999
    /\ st_mem st' 3032 = sample_mem 3032
    /\ load_bytes (st_mem st') 2000 16 = f32_5 ++ f32_6 ++ f32_7 ++ f32_8.
Proof.
  destruct (kernel_writes_only_output
              (SerialVec 2) 4 sample_R [sample_A; sample_B] 1 sample_mem
              sample_valid
              (serial_revision_valid 2 sample_R 1 eq_refl
                                     ltac:(cbv; discriminate)))
    as [st' [Hrun [Hout Hin]]].
  exists st'. split; [exact Hrun|]. split; [|split].
  - apply Hout. unfold in_buffer. simpl. lia.
  - apply Hout. unfold in_buffer. simpl. lia.
  - etransitivity; [exact (Hin sample_B (or_intror (or_introl eq_refl)))|].
    vm_compute. reflexivity.
Defined.

(** X3.  The output bytes depend on the bytes of the inputs only: two
    stores that agree on every input buffer give the same output, whatever
    the output buffer or any other address held before the call. *)
Theorem output_depends_only_on_inputs
        (v : revision) (sizeof_scalar : Z) (result : Tensor)
        (tensors : list Tensor) (dim : nat) (m1 m2 : mem) :
  valid_cat sizeof_scalar result tensors dim ->
  valid_revision v result dim ->
  (forall (t : Tensor) (a : Z),
      In t tensors -> in_buffer sizeof_scalar t a -> m1 a = m2 a) ->
  exists st1 st2 : state,
    cat_contig_kernel v sizeof_scalar result tensors dim (mkState m1 [])
    = (st1, Done tt)
    /\ cat_contig_kernel v sizeof_scalar result tensors dim (mkState m2 [])
       = (st2, Done tt)
    /\ output_bytes sizeof_scalar result (st_mem st1)
       = output_bytes sizeof_scalar result (st_mem st2).
Proof.
  intros Hv Hr Hagree.
  destruct (kernel_runs _ _ _ _ Hv v (mkState m1 []) Hr)
    as [st1 [idx1 [Hrun1 [Hperm1 [Hmem1 _]]]]].
  destruct (kernel_runs _ _ _ _ Hv v (mkState m2 []) Hr)
    as [st2 [idx2 [Hrun2 [Hperm2 [Hmem2 _]]]]].
  simpl in Hmem1, Hmem2.
  exists st1, st2. split; [exact Hrun1|]. split; [exact Hrun2|].
  rewrite (output_reconstructed _ _ _ _ Hv idx1 Hperm1 m1 _ Hmem1).
  rewrite (output_reconstructed _ _ _ _ Hv idx2 Hperm2 m2 _ Hmem2).
  apply (cat_bytes_ext _ _ _ _ Hv). exact Hagree.
Qed.

Lemma stale_mem_agrees (t : Tensor) (a : Z) :
  In t [sample_A; sample_B] -> in_buffer 4 t a -> sample_mem a = stale_mem a.
Proof.
  intros Hin Ha. unfold stale_mem.
  assert (Hout : in_range 3000 32 a = false).
  { apply in_range_false. unfold in_buffer in Ha.
    destruct Hin as [<-|[<-|[]]]; simpl in Ha; lia. }
  rewrite Hout. reflexivity.
Qed.

Lemma output_depends_only_on_inputs_witness :
  exists st1 st2 : state,
    cat_contig_kernel (ParallelMemcpy 32768 grain_chunks) 4
                      sample_R [sample_A; sample_B] 1 (mkState sample_mem [])
    = (st1, Done tt)
    /\ cat_contig_kernel (ParallelMemcpy 32768 grain_chunks) 4
                         sample_R [sample_A; sample_B] 1 (mkState stale_mem [])
       = (st2, Done tt)
    /\ output_bytes 4 sample_R (st_mem st1)
       = output_bytes 4 sample_R (st_mem st2).
Proof.
  exact (output_depends_only_on_inputs
           (ParallelMemcpy 32768 grain_chunks) 4
           sample_R [sample_A; sample_B] 1 sample_mem stale_mem
           sample_valid
           (grain_revision_valid 32768 sample_R 1 grain_32768)
           stale_mem_agrees).
Defined.

(** X4.  Calling the kernel again on the store it returned, with the same
    arguments and either revision, changes no byte: the inputs were left as
    they were, so the second call writes what the first one wrote. *)
Theorem kernel_is_idempotent
        (v1 v2 : revision) (sizeof_scalar : Z) (result : Tensor)
        (tensors : list Tensor) (dim : nat) (m : mem) :
  valid_cat sizeof_scalar result tensors dim ->
  valid_revision v1 result dim ->
  valid_revision v2 result dim ->
  exists st1 st2 : state,
    cat_contig_kernel v1 sizeof_scalar result tensors dim (mkState m [])
    = (st1, Done tt)
    /\ cat_contig_kernel v2 sizeof_scalar result tensors dim
                         (mkState (st_mem st1) [])
       = (st2, Done tt)
    /\ mem_eq (st_mem st2) (st_mem st1).
Proof.
  intros Hv Hr1 Hr2.
  destruct (kernel_runs _ _ _ _ Hv v1 (mkState m []) Hr1)
    as [st1 [idx1 [Hrun1 [Hperm1 [Hmem1 _]]]]].
  destruct (kernel_runs _ _ _ _ Hv v2 (mkState (st_mem st1) []) Hr2)
    as [st2 [idx2 [Hrun2 [Hperm2 [Hmem2 _]]]]].
  simpl in Hmem1, Hmem2.
  exists st1, st2. split; [exact Hrun1|]. split; [exact Hrun2|].
  intros a. rewrite (Hmem2 a).
  rewrite (apply_log_ext _ _ _ Hmem1 a).
  rewrite (log_applied_twice _ _ _ _ Hv idx1 Hperm1 idx2 m Hperm2 a).
  symmetry. apply Hmem1.
Qed.

Lemma kernel_is_idempotent_witness :
  exists st1 st2 : state,
    cat_contig_kernel (SerialVec 2) 4 sample_R [sample_A; sample_B] 1
                      (mkState sample_mem [])
    = (st1, Done tt)
    /\ cat_contig_kernel (ParallelMemcpy 32768 task_per_index_reversed) 4
                         sample_R [sample_A; sample_B] 1
                         (mkState (st_mem st1) [])
       = (st2, Done tt)
    /\ mem_eq (st_mem st2) (st_mem st1).
Proof.
  exact (kernel_is_idempotent
           (SerialVec 2) (ParallelMemcpy 32768 task_per_index_reversed) 4
           sample_R [sample_A; sample_B] 1 sample_mem
           sample_valid
           (serial_revision_valid 2 sample_R 1 eq_refl
                                  ltac:(cbv; discriminate))
           (reversed_revision_valid 32768 sample_R 1 grain_32768)).
Defined.

(** ** An output without outer groups *)

Lemma vacant_valid : valid_cat 4 vacant_R [vacant_A; vacant_B] 1.
Proof. solve_valid_cat. Qed.

(** X5.  An output that is valid but holds no element (a zero extent on an
    axis before the concatenation axis) has no outer group: the kernel
    completes and leaves the state it was given, without a copy. *)
Theorem no_outer_group_is_noop
        (v : revision) (sizeof_scalar : Z) (result : Tensor)
        (tensors : list Tensor) (dim : nat) (st : state) :
  valid_cat sizeof_scalar result tensors dim ->
  valid_revision v result dim ->
  numel result = 0 ->
  cat_contig_kernel v sizeof_scalar result tensors dim st = (st, Done tt).
Proof.
  intros Hv Hr Hnum.
  assert (HN : outer_count result dim = 0).
  { unfold outer_count. rewrite Hnum. apply Z.quot_0_l.
    pose proof (vc_nonempty Hv). lia. }
  destruct v as [GRAIN sched|W]; simpl.
  - destruct Hr as [Hg Hp].
    rewrite (par_run _ _ _ _ _ _ Hv Hg Hp st).
    unfold partitions in Hp.
    rewrite (rangeZ_nil 0 (outer_count result dim)) in Hp by lia.
    apply Permutation_sym, Permutation_nil in Hp.
    rewrite Hp. simpl prescribed_log. rewrite extend_nil. reflexivity.
  - rewrite (serial_unfold _ _ _ _ _ Hv st). rewrite HN.
    replace (Z.to_nat (Z.min 0 (INT_MAX + 1))) with O by reflexivity.
    reflexivity.
Qed.

Lemma no_outer_group_is_noop_witness :
  cat_contig_kernel (SerialVec 8) 4 vacant_R [vacant_A; vacant_B] 1
                    (mkState pattern_mem [])
  = (mkState pattern_mem [], Done tt)
  /\ cat_contig_kernel (ParallelMemcpy 32768 grain_chunks) 4
                       vacant_R [vacant_A; vacant_B] 1 (mkState pattern_mem [])
     = (mkState pattern_mem [], Done tt).
Proof.
  split.
  - apply (no_outer_group_is_noop
             (SerialVec 8) 4 vacant_R [vacant_A; vacant_B] 1
             (mkState pattern_mem []) vacant_valid
             (serial_revision_valid 8 vacant_R 1 eq_refl
                                    ltac:(cbv; discriminate))
             eq_refl).
  - apply (no_outer_group_is_noop
             (ParallelMemcpy 32768 grain_chunks) 4
             vacant_R [vacant_A; vacant_B] 1
             (mkState pattern_mem []) vacant_valid
             (grain_revision_valid 32768 vacant_R 1 grain_32768)
             eq_refl).
Defined.

(** ** Inputs that lack the axis *)

Lemma has_axis_dec (dim : nat) (t : Tensor) :
  {has_axis dim t} + {~ has_axis dim t}.
Proof.
  unfold has_axis.
  destruct (lt_dec dim (length (sizes t)));
    destruct (lt_dec dim (length (strides t))); try (right; tauto).
  left. tauto.
Qed.

Lemma has_axis_accessors (dim : nat) (t : Tensor) :
  has_axis dim t ->
  exists sz sd, size t dim = Done sz /\ stride t dim = Done sd.
Proof.
  intros [Hs Hd]. unfold size, stride.
  apply nth_error_Some in Hs. apply nth_error_Some in Hd.
  destruct (nth_error (sizes t) dim) as [sz|]; [|congruence].
  destruct (nth_error (strides t) dim) as [sd|]; [|congruence].
  exists sz, sd. split; reflexivity.
Qed.

Lemma no_axis_accessors (dim : nat) (t : Tensor) :
  ~ has_axis dim t ->
  size t dim = Fault IndexError \/ stride t dim = Fault IndexError.
Proof.
  intros H. unfold size, stride.
  destruct (nth_error (sizes t) dim) as [sz|] eqn:Es; [|left; reflexivity].
  destruct (nth_error (strides t) dim) as [sd|] eqn:Ed; [|right; reflexivity].
  exfalso. apply H. split; apply nth_error_Some; congruence.
Qed.

Lemma axes_checked (dim : nat) (ts : list Tensor) :
  Forall (has_axis dim) ts \/ Exists (fun t => ~ has_axis dim t) ts.
Proof.
  destruct (Forall_Exists_dec (has_axis dim) (has_axis_dec dim) ts) as [H|H];
    [left|right]; exact H.
Qed.

(** *** The sequential revision *)

Lemma serial_collect_total (dim : nat) (ts : list Tensor) :
  Forall (has_axis dim) ts ->
  exists inputs, Serial.collect_inputs dim ts = Done inputs.
Proof.
  induction 1 as [|t ts Ht _ [inputs IH]]; [exists []; reflexivity|].
  destruct (has_axis_accessors dim t Ht) as [sz [sd [Hs Hd]]].
  simpl. unfold Serial.InputMeta_ctor. rewrite Hs, Hd. simpl.
  rewrite IH. simpl. eexists. reflexivity.
Qed.

Lemma serial_collect_rejects (dim : nat) (ts : list Tensor) :
  Exists (fun t => ~ has_axis dim t) ts ->
  Serial.collect_inputs dim ts = Fault IndexError.
Proof.
  induction 1 as [t ts Ht|t ts _ IH]; simpl; unfold Serial.InputMeta_ctor.
  - destruct (no_axis_accessors dim t Ht) as [Hs|Hd].
    + rewrite Hs. unfold stride.
      destruct (nth_error (strides t) dim); reflexivity.
    + rewrite Hd. reflexivity.
  - rewrite IH. unfold size, stride.
    destruct (nth_error (strides t) dim); [|reflexivity].
    destruct (nth_error (sizes t) dim); reflexivity.
Qed.

(** X6.  The sequential revision reads the extent and the stride of every
    input before its first copy.  With the output's axis in range and a
    non-zero divisor, it stops with an index error exactly when some input
    lacks the axis, and then it has written nothing: the state is the one
    it was given. *)
Theorem serial_checks_axes_before_writing
        (sizeof_scalar Vec_size : Z) (result : Tensor)
        (tensors : list Tensor) (dim : nat) (st : state) (rsz rsd : Z) :
  size result dim = Done rsz ->
  stride result dim = Done rsd ->
  Int64.mul rsz rsd <> 0 ->
  (Exists (fun t => ~ has_axis dim t) tensors ->
   Serial.cat_contig_kernel_impl sizeof_scalar Vec_size result tensors dim st
   = (st, Fault IndexError))
  /\ (snd (Serial.cat_contig_kernel_impl sizeof_scalar Vec_size
                                         result tensors dim st)
      = Fault IndexError ->
      Exists (fun t => ~ has_axis dim t) tensors).
Proof.
  intros Hs Hd Hnz.
  unfold Serial.cat_contig_kernel_impl, bind_exec, lift.
  rewrite Hs, Hd. unfold div64.
  destruct (Z.eqb_spec (Int64.mul rsz rsd) 0) as [E|_]; [contradiction|].
  split.
  - intros Hbad. rewrite (serial_collect_rejects dim tensors Hbad).
    reflexivity.
  - intros Hrun.
    destruct (axes_checked dim tensors) as [Hall|Hbad]; [|exact Hbad].
    destruct (serial_collect_total dim tensors Hall) as [inputs Hin].
    rewrite Hin in Hrun. simpl in Hrun.
    destruct (INT_MAX <? _) in Hrun; discriminate.
Qed.

Lemma serial_checks_axes_before_writing_witness :
  Serial.cat_contig_kernel_impl 4 8 sample_R [sample_A; flat_B] 1
                                (mkState sample_mem [])
  = (mkState sample_mem [], Fault IndexError).
Proof.
  apply (serial_checks_axes_before_writing
           4 8 sample_R [sample_A; flat_B] 1 (mkState sample_mem []) 4 1
           eq_refl eq_refl ltac:(cbv; discriminate)).
  right. left. unfold has_axis. simpl. lia.
Defined.

(** *** The parallel revision *)

Lemma par_copy_tensors_total (sizeof_scalar : Z) (dim : nat) (i : Z)
      (ts : list Tensor) :
  Forall (has_axis dim) ts ->
  forall (j : nat) (p : Z) (st : state),
    snd (Parallel.copy_tensors sizeof_scalar dim i ts j p st) = Done tt.
Proof.
  induction 1 as [|t ts Ht _ IH]; intros j p st; [reflexivity|].
  destruct (has_axis_accessors dim t Ht) as [sz [sd [Hs Hd]]].
  simpl. unfold bind_exec, lift. rewrite Hs, Hd. simpl. apply IH.
Qed.

Lemma par_copy_tensors_rejects (sizeof_scalar : Z) (dim : nat) (i : Z)
      (ts : list Tensor) :
  Exists (fun t => ~ has_axis dim t) ts ->
  forall (j : nat) (p : Z) (st : state),
    snd (Parallel.copy_tensors sizeof_scalar dim i ts j p st)
    = Fault IndexError.
Proof.
  induction 1 as [t ts Ht|t ts _ IH]; intros j p st;
    simpl; unfold bind_exec, lift.
  - destruct (no_axis_accessors dim t Ht) as [Hs|Hd].
    + rewrite Hs. reflexivity.
    + rewrite Hd. unfold size.
      destruct (nth_error (sizes t) dim); reflexivity.
  - unfold size, stride.
    destruct (nth_error (sizes t) dim); [|reflexivity].
    destruct (nth_error (strides t) dim); [|reflexivity].
    simpl. apply IH.
Qed.

Lemma par_loop_from_total (body : Z -> exec unit) (n : nat) :
  (forall i st, snd (body i st) = Done tt) ->
  forall (i : Z) (st : state), snd (Parallel.loop_from body n i st) = Done tt.
Proof.
  intros Hb. induction n as [|n IH]; intros i st; [reflexivity|].
  simpl. unfold bind_exec. specialize (Hb i st).
  destruct (body i st) as [st' [[]|e]]; [apply IH|discriminate].
Qed.

Lemma par_loop_from_rejects (body : Z -> exec unit) (n : nat) :
  (forall i st, snd (body i st) = Fault IndexError) ->
  forall (i : Z) (st : state),
    Parallel.loop_from body (S n) i st = (fst (body i st), Fault IndexError).
Proof.
  intros Hb i st. simpl. unfold bind_exec. specialize (Hb i st).
  destruct (body i st) as [st' [[]|e]]; simpl in *; congruence.
Qed.

Lemma par_chunks_total (f : Z -> Z -> exec unit) (chunks : list (Z * Z)) :
  (forall s e st, snd (f s e st) = Done tt) ->
  forall (acc : exec unit) (st : state),
    snd (acc st) = Done tt ->
    snd (fold_left (fun acc (r : Z * Z) => _ <~ acc ;; f (fst r) (snd r))
                   chunks acc st) = Done tt.
Proof.
  intros Hf. induction chunks as [|r chunks IH]; intros acc st Hacc;
    [exact Hacc|].
  simpl. apply IH. unfold bind_exec.
  destruct (acc st) as [st' [[]|e]]; [apply Hf|discriminate].
Qed.

(** Once a task has stopped, the tasks after it do not run. *)
Lemma par_chunks_stopped (f : Z -> Z -> exec unit) (chunks : list (Z * Z)) :
  forall (acc : exec unit) (st st' : state) (e : error),
    acc st = (st', Fault e) ->
    fold_left (fun acc (r : Z * Z) => _ <~ acc ;; f (fst r) (snd r))
              chunks acc st
    = (st', Fault e).
Proof.
  induction chunks as [|r chunks IH]; intros acc st st' e Hacc;
    [exact Hacc|].
  simpl. apply IH. unfold bind_exec. rewrite Hacc. reflexivity.
Qed.

Lemma par_chunks_idle (f : Z -> Z -> exec unit) (chunks : list (Z * Z)) :
  (forall s e st, e <= s -> f s e st = (st, Done tt)) ->
  Forall (fun r => snd r <= fst r) chunks ->
  forall (acc : exec unit) (st st' : state),
    acc st = (st', Done tt) ->
    fold_left (fun acc (r : Z * Z) => _ <~ acc ;; f (fst r) (snd r))
              chunks acc st
    = (st', Done tt).
Proof.
  intros Hskip. induction 1 as [|r chunks Hr _ IH]; intros acc st st' Hacc;
    [exact Hacc|].
  simpl. apply IH. unfold bind_exec. rewrite Hacc. apply Hskip. exact Hr.
Qed.

Lemma par_chunks_rejects (f : Z -> Z -> exec unit) (chunks : list (Z * Z)) :
  (forall s e st, s < e -> snd (f s e st) = Fault IndexError) ->
  (forall s e st, e <= s -> f s e st = (st, Done tt)) ->
  forall (acc : exec unit) (st : state),
    snd (acc st) = Fault IndexError
    \/ (snd (acc st) = Done tt /\ Exists (fun r => fst r < snd r) chunks) ->
    snd (fold_left (fun acc (r : Z * Z) => _ <~ acc ;; f (fst r) (snd r))
                   chunks acc st) = Fault IndexError.
Proof.
  intros Hbad Hskip.
  induction chunks as [|r chunks IH]; intros acc st [Hacc|[Hacc Hex]].
  - exact Hacc.
  - inversion Hex.
  - simpl. apply IH. left. unfold bind_exec.
    destruct (acc st) as [st1 [[]|e]]; [discriminate|exact Hacc].
  - simpl. apply IH. unfold bind_exec.
    destruct (acc st) as [st1 [[]|e]]; [|discriminate].
    destruct (Z_lt_le_dec (fst r) (snd r)) as [Hr|Hr].
    + left. apply Hbad. exact Hr.
    + right. rewrite (Hskip _ _ st1 Hr). split; [reflexivity|].
      inversion Hex as [? ? Hhd|? ? Htl]; subst; [lia|exact Htl].
Qed.

Lemma par_loop_nd_idle (sizeof_scalar : Z) (result : Tensor)
      (tensors : list Tensor) (dim : nat) (output_stride s e : Z)
      (st : state) :
  e <= s ->
  Parallel.loop_nd sizeof_scalar result tensors dim output_stride s e st
  = (st, Done tt).
Proof.
  intros H. unfold Parallel.loop_nd.
  replace (Z.to_nat (e - s)) with O by lia. reflexivity.
Qed.

(** X8.  The parallel revision reads an input's extent and stride only when
    it copies from it.  With the output's axis in range and a non-zero
    divisor, it stops with an index error exactly when some input lacks the
    axis and the scheduler hands out a sub-range that holds an index; with
    no index to run, an input without the axis goes unnoticed. *)
Theorem parallel_reports_missing_axis
        (sizeof_scalar GRAIN_SIZE : Z)
        (schedule : Z -> Z -> Z -> list (Z * Z)) (result : Tensor)
        (tensors : list Tensor) (dim : nat) (st : state) (rsz rsd : Z) :
  size result dim = Done rsz ->
  stride result dim = Done rsd ->
  Int64.mul rsz rsd <> 0 ->
  snd (Parallel.cat_contig_kernel_impl sizeof_scalar GRAIN_SIZE schedule
                                       result tensors dim st)
  = Fault IndexError
  <-> Exists (fun t => ~ has_axis dim t) tensors
      /\ Exists (fun r => fst r < snd r)
                (schedule 0
                   (Int64.wrap (Z.quot (numel result) (Int64.mul rsz rsd)))
                   (Int64.wrap (Z.quot GRAIN_SIZE (Int64.mul rsz rsd)))).
Proof.
  intros Hs Hd Hnz.
  unfold Parallel.cat_contig_kernel_impl, Parallel.partition_params,
    bind_exec, lift.
  rewrite Hs, Hd. simpl. unfold div64.
  rewrite (mul64_comm rsd rsz).
  destruct (Z.eqb_spec (Int64.mul rsz rsd) 0) as [E|_]; [contradiction|].
  simpl. unfold Parallel.parallel_for.
  set (chunks := schedule 0 _ _).
  split.
  - intros Hrun.
    destruct (axes_checked dim tensors) as [Hall|Hbad].
    + rewrite par_chunks_total in Hrun; [discriminate| |reflexivity].
      intros s e st0. unfold Parallel.loop_nd.
      apply par_loop_from_total. intros i st1. unfold Parallel.loop_body.
      apply par_copy_tensors_total. exact Hall.
    + split; [exact Hbad|].
      destruct (Forall_Exists_dec (fun r : Z * Z => snd r <= fst r)
                  (fun r => Z_le_dec (snd r) (fst r)) chunks) as [Hidle|Hex].
      * rewrite (par_chunks_idle _ chunks
                   (par_loop_nd_idle sizeof_scalar result tensors dim
                                     (Int64.mul rsz rsd))
                   Hidle _ st st eq_refl) in Hrun.
        discriminate.
      * apply Exists_impl with (2 := Hex). intros r Hr. lia.
  - intros [Hbad Hex].
    apply par_chunks_rejects.
    + intros s e st0 Hse. unfold Parallel.loop_nd.
      destruct (Z.to_nat (e - s)) as [|n] eqn:En; [lia|].
      rewrite par_loop_from_rejects; [reflexivity|].
      intros i st1. unfold Parallel.loop_body.
      apply par_copy_tensors_rejects. exact Hbad.
    + intros s e st0 Hse. apply par_loop_nd_idle. exact Hse.
    + right. split; [reflexivity|exact Hex].
Qed.

Lemma parallel_reports_missing_axis_witness :
  snd (Parallel.cat_contig_kernel_impl 4 32768 single_task
         sample_R [sample_A; flat_B] 1 (mkState sample_mem []))
  = Fault IndexError.
Proof.
  apply (parallel_reports_missing_axis
           4 32768 single_task sample_R [sample_A; flat_B] 1
           (mkState sample_mem []) 4 1
           eq_refl eq_refl ltac:(cbv; discriminate)).
  split.
  - right. left. unfold has_axis. simpl. lia.
  - left. vm_compute. reflexivity.
Defined.

(** ** One input, and concatenation in two steps *)

(** Consecutive chunks of a buffer, concatenated, are the buffer. *)
Lemma chunks_are_buffer (m : mem) (p c : Z) (n : nat) :
  0 <= c ->
  forall i : Z,
    concat (map (fun k => load_bytes m (p + k * c) c)
                (rangeZ i (i + Z.of_nat n)))
    = load_bytes m (p + i * c) (Z.of_nat n * c).
Proof.
  intros Hc. induction n as [|n IH]; intros i.
  - rewrite rangeZ_nil by lia. reflexivity.
  - replace (i + Z.of_nat (S n)) with (i + 1 + Z.of_nat n) by lia.
    replace (Z.of_nat (S n) * c) with (c + Z.of_nat n * c) by lia.
    rewrite (rangeZ_cons i) by lia. cbn [map concat].
    rewrite IH. rewrite load_bytes_app by nia.
    do 2 f_equal. ring.
Qed.

Lemma identity_valid : valid_cat 4 identity_R [identity_A] 0.
Proof. solve_valid_cat. Qed.

(** X9.  With a single input the kernel is a copy: the output buffer holds
    the bytes of the input buffer, end to end, and the two buffers have the
    same number of elements. *)
Theorem single_input_is_copied
        (v : revision) (sizeof_scalar : Z) (result t : Tensor)
        (dim : nat) (m : mem) :
  valid_cat sizeof_scalar result [t] dim ->
  valid_revision v result dim ->
  exists st' : state,
    cat_contig_kernel v sizeof_scalar result [t] dim (mkState m [])
    = (st', Done tt)
    /\ numel t = numel result
    /\ output_bytes sizeof_scalar result (st_mem st')
       = load_bytes m (data_ptr t) (numel t * sizeof_scalar).
Proof.
  intros Hv Hr.
  destruct (kernel_runs _ _ _ _ Hv v (mkState m []) Hr)
    as [st' [indices [Hrun [Hperm [Hmem _]]]]].
  simpl in Hmem. exists st'. split; [exact Hrun|].
  destruct (cat_input _ _ _ _ Hv t (or_introl eq_refl)) as [Ht [_ Hnt]].
  pose proof (cat_inner_sum _ _ _ _ Hv) as Hsum.
  cbn [map] in Hsum. rewrite sumZ_cons in Hsum.
  change (sumZ []) with 0 in Hsum.
  pose proof (cat_numel _ _ _ _ Hv) as Hnr.
  pose proof (outer_range _ _ _ _ Hv) as HN.
  pose proof (vc_nonempty Hv) as HG. pose proof (vc_sizeof Hv) as Hsz.
  split; [rewrite Hnt, Hnr; f_equal; lia|].
  rewrite (output_reconstructed _ _ _ _ Hv indices Hperm m _ Hmem).
  unfold cat_bytes.
  rewrite (map_ext (group_run sizeof_scalar [t] dim m)
             (fun k => load_bytes m
                         (data_ptr t + k * (inner_size t dim * sizeof_scalar))
                         (inner_size t dim * sizeof_scalar))).
  - pose proof (chunks_are_buffer m (data_ptr t)
                  (inner_size t dim * sizeof_scalar)
                  (Z.to_nat (outer_count result dim)) ltac:(nia) 0) as H.
    rewrite Z2Nat.id in H by lia. simpl in H. rewrite H.
    rewrite Hnt. f_equal; ring.
  - intros k. unfold group_run, inner_run. simpl. rewrite app_nil_r.
    f_equal. ring.
Qed.

Lemma single_input_is_copied_witness :
  exists st' : state,
    cat_contig_kernel (SerialVec 4) 4 identity_R [identity_A] 0
                      (mkState pattern_mem [])
    = (st', Done tt)
    /\ numel identity_A = numel identity_R
    /\ output_bytes 4 identity_R (st_mem st')
       = load_bytes pattern_mem 1000 60.
Proof.
  exact (single_input_is_copied
           (SerialVec 4) 4 identity_R identity_A 0 pattern_mem
           identity_valid
           (serial_revision_valid 4 identity_R 0 eq_refl
                                  ltac:(cbv; discriminate))).
Defined.

Section TwoSteps.

Variable sizeof_scalar : Z.
Variables mid result : Tensor.
Variables ts1 ts2 : list Tensor.
Variable dim : nat.
Hypothesis Hfirst : valid_cat sizeof_scalar mid ts1 dim.
Hypothesis Hsecond : valid_cat sizeof_scalar result (mid :: ts2) dim.

(** The intermediate buffer has the outer groups of the final output. *)
Lemma same_outer_count : outer_count mid dim = outer_count result dim.
Proof.
  destruct (cat_input _ _ _ _ Hsecond mid (or_introl eq_refl))
    as [_ [_ Hnum]].
  pose proof (cat_numel _ _ _ _ Hfirst) as Hmid.
  pose proof (vc_nonempty Hfirst) as HG.
  unfold inner_size in Hnum. unfold output_group_stride in Hmid, HG.
  nia.
Qed.

Hypothesis Hapart :
  forall (t : Tensor) (a : Z),
    In t ts2 -> in_buffer sizeof_scalar t a ->
    ~ in_buffer sizeof_scalar mid a.

Variable indices : list Z.
Hypothesis Hperm : Permutation indices (rangeZ 0 (outer_count mid dim)).
Variables m m1 : mem.
Hypothesis Hm1 :
  mem_eq m1 (apply_log (prescribed_log sizeof_scalar mid ts1 dim indices) m).

(** A group of the second step, read from the store the first step left,
    is the group of all inputs, read from the initial store. *)
Lemma group_in_two_steps (i : Z) :
  0 <= i < outer_count result dim ->
  group_run sizeof_scalar (mid :: ts2) dim m1 i
  = group_run sizeof_scalar (ts1 ++ ts2) dim m i.
Proof.
  intros Hi. unfold group_run. simpl map. rewrite map_app, concat_app.
  simpl concat. f_equal.
  - rewrite <- same_outer_count in Hi.
    exact (group_reconstructed _ _ _ _ Hfirst indices Hperm m m1 Hm1 i Hi).
  - f_equal. apply map_ext_in. intros t Hin.
    apply (inner_run_ext _ _ _ _ Hsecond m1 m i t);
      [right; exact Hin|exact Hi|].
    intros a Ha. rewrite (Hm1 a).
    apply (log_outside_output _ _ _ _ Hfirst indices Hperm m a).
    apply (Hapart t a Hin Ha).
Qed.

End TwoSteps.

Lemma first_step_valid : valid_cat 4 joined_M [sample_A; sample_B] 1.
Proof. solve_valid_cat. Qed.

Lemma second_step_valid : valid_cat 4 wide_R [joined_M; sample_C] 1.
Proof. solve_valid_cat. Qed.

Lemma one_step_valid : valid_cat 4 wide_R [sample_A; sample_B; sample_C] 1.
Proof. solve_valid_cat. Qed.

(** X10.  Concatenating in two steps gives the bytes of concatenating at
    once: if the first inputs are concatenated into an intermediate buffer
    and that buffer is then concatenated with the remaining inputs, the
    output holds what one call on all inputs writes, provided each of the
    three calls is valid and the intermediate buffer shares no byte with
    the remaining inputs.  The revisions of the three calls may differ. *)
Theorem cat_in_two_steps
        (v1 v2 v3 : revision) (sizeof_scalar : Z) (mid result : Tensor)
        (ts1 ts2 : list Tensor) (dim : nat) (m : mem) :
  valid_cat sizeof_scalar mid ts1 dim ->
  valid_cat sizeof_scalar result (mid :: ts2) dim ->
  valid_cat sizeof_scalar result (ts1 ++ ts2) dim ->
  (forall (t : Tensor) (a : Z),
      In t ts2 -> in_buffer sizeof_scalar t a ->
      ~ in_buffer sizeof_scalar mid a) ->
  valid_revision v1 mid dim ->
  valid_revision v2 result dim ->
  valid_revision v3 result dim ->
  exists st1 st2 st3 : state,
    cat_contig_kernel v1 sizeof_scalar mid ts1 dim (mkState m [])
    = (st1, Done tt)
    /\ cat_contig_kernel v2 sizeof_scalar result (mid :: ts2) dim
                         (mkState (st_mem st1) [])
       = (st2, Done tt)
    /\ cat_contig_kernel v3 sizeof_scalar result (ts1 ++ ts2) dim
                         (mkState m [])
       = (st3, Done tt)
    /\ output_bytes sizeof_scalar result (st_mem st2)
       = output_bytes sizeof_scalar result (st_mem st3).
Proof.
  intros Hfirst Hsecond Hone Hapart Hr1 Hr2 Hr3.
  destruct (kernel_runs _ _ _ _ Hfirst v1 (mkState m []) Hr1)
    as [st1 [idx1 [Hrun1 [Hperm1 [Hmem1 _]]]]].
  destruct (kernel_runs _ _ _ _ Hsecond v2 (mkState (st_mem st1) []) Hr2)
    as [st2 [idx2 [Hrun2 [Hperm2 [Hmem2 _]]]]].
  destruct (kernel_runs _ _ _ _ Hone v3 (mkState m []) Hr3)
    as [st3 [idx3 [Hrun3 [Hperm3 [Hmem3 _]]]]].
  simpl in Hmem1, Hmem2, Hmem3.
  exists st1, st2, st3.
  split; [exact Hrun1|]. split; [exact Hrun2|]. split; [exact Hrun3|].
  rewrite (output_reconstructed _ _ _ _ Hsecond idx2 Hperm2 _ _ Hmem2).
  rewrite (output_reconstructed _ _ _ _ Hone idx3 Hperm3 _ _ Hmem3).
  unfold cat_bytes. f_equal. apply map_ext_in. intros i Hi.
  apply in_rangeZ in Hi.
  apply (group_in_two_steps _ _ _ _ _ _ Hfirst Hsecond Hapart
                            idx1 Hperm1 m (st_mem st1) Hmem1 i Hi).
Qed.

Lemma remaining_input_apart (t : Tensor) (a : Z) :
  In t [sample_C] -> in_buffer 4 t a -> ~ in_buffer 4 joined_M a.
Proof.
  intros [<-|[]]. unfold in_buffer. simpl. lia.
Qed.

Lemma cat_in_two_steps_witness :
  exists st1 st2 st3 : state,
    cat_contig_kernel (SerialVec 2) 4 joined_M [sample_A; sample_B] 1
                      (mkState pattern_mem [])
    = (st1, Done tt)
    /\ cat_contig_kernel (ParallelMemcpy 32768 grain_chunks) 4
                         wide_R [joined_M; sample_C] 1
                         (mkState (st_mem st1) [])
       = (st2, Done tt)
    /\ cat_contig_kernel (SerialVec 8) 4
                         wide_R ([sample_A; sample_B] ++ [sample_C]) 1
                         (mkState pattern_mem [])
       = (st3, Done tt)
    /\ output_bytes 4 wide_R (st_mem st2) = output_bytes 4 wide_R (st_mem st3).
Proof.
  exact (cat_in_two_steps
           (SerialVec 2) (ParallelMemcpy 32768 grain_chunks) (SerialVec 8) 4
           joined_M wide_R [sample_A; sample_B] [sample_C] 1 pattern_mem
           first_step_valid second_step_valid one_step_valid
           remaining_input_apart
           (serial_revision_valid 2 joined_M 1 eq_refl
                                  ltac:(cbv; discriminate))
           (grain_revision_valid 32768 wide_R 1 grain_32768)
           (serial_revision_valid 8 wide_R 1 eq_refl
                                  ltac:(cbv; discriminate))).
Defined.

(** ** The scenarios of the specification, run *)

Example two_by_two_parallel :
  output_bytes 4 sample_R
    (st_mem (fst (cat_contig_kernel (ParallelMemcpy 32768 grain_chunks) 4
                    sample_R [sample_A; sample_B] 1 (mkState sample_mem []))))
  = (f32_1 ++ f32_2 ++ f32_5 ++ f32_6) ++ (f32_3 ++ f32_4 ++ f32_7 ++ f32_8).
Proof. vm_compute. reflexivity. Qed.

Example two_by_two_serial_scalar_path :
  output_bytes 4 sample_R
    (st_mem (fst (cat_contig_kernel (SerialVec 8) 4
                    sample_R [sample_A; sample_B] 1 (mkState sample_mem []))))
  = (f32_1 ++ f32_2 ++ f32_5 ++ f32_6) ++ (f32_3 ++ f32_4 ++ f32_7 ++ f32_8).
Proof. vm_compute. reflexivity. Qed.

Example two_by_two_serial_vector_path :
  output_bytes 4 sample_R
    (st_mem (fst (cat_contig_kernel (SerialVec 2) 4
                    sample_R [sample_A; sample_B] 1 (mkState sample_mem []))))
  = (f32_1 ++ f32_2 ++ f32_5 ++ f32_6) ++ (f32_3 ++ f32_4 ++ f32_7 ++ f32_8).
Proof. vm_compute. reflexivity. Qed.

Example single_input_is_identity :
  output_bytes 4 identity_R
    (st_mem (fst (cat_contig_kernel (SerialVec 4) 4
                    identity_R [identity_A] 0 (mkState pattern_mem []))))
  = load_bytes pattern_mem 1000 60.
Proof. vm_compute. reflexivity. Qed.

Example narrow_runs_interleave :
  output_bytes 4 narrow_R
    (st_mem (fst (cat_contig_kernel (SerialVec 8) 4
                    narrow_R [narrow_A; narrow_B; narrow_C] 1
                    (mkState pattern_mem []))))
  = concat (map (fun row =>
                   load_bytes pattern_mem (1000 + 4 * row) 4
                   ++ load_bytes pattern_mem (1100 + 4 * row) 4
                   ++ load_bytes pattern_mem (1200 + 4 * row) 4)
                (rangeZ 0 10))
  /\ snd (cat_contig_kernel (SerialVec 8) 4
            narrow_R [narrow_A; narrow_B; narrow_C] 1 (mkState pattern_mem []))
     = Done tt.
Proof. vm_compute. split; reflexivity. Qed.

(** An input list whose second tensor lacks the axis: the first tensor's run
    of outer index 0 has been copied when the accessor stops the kernel. *)
Example missing_axis_stops_midway :
  let r := cat_contig_kernel (ParallelMemcpy 32768 single_task) 4
             sample_R [sample_A; mkTensor [2] [1] 2000] 1
             (mkState sample_mem []) in
  snd r = Fault IndexError
  /\ st_log (fst r) = [mkEvent 0 0 3000 1000 8].
Proof. vm_compute. split; reflexivity. Qed.
